(** * Balance engine of the shared-expense ledger

    A shallow embedding of [app/services/balance.py]: the per-group ledger
    aggregation ([calculate_group_balances]), the greedy debt simplifier
    ([simplify_debts]) and the personal aggregate
    ([calculate_user_net_balance]), together with the ORM rows they read
    ([app/db/models]).

    Money.  Every monetary column is [Numeric(10, 2)] and the service only
    adds, subtracts, negates and compares [Decimal] values, all of which are
    exact; an amount is therefore represented by its number of hundredths,
    an integer: [Decimal("0.01")] is [1], [Decimal("100.00")] is [10000]. *)

From stdpp Require Import gmap strings list fin_maps.
From Stdlib Require Import ZArith Lia.

Local Open Scope Z_scope.

(** ** The rows ([app/db/models]) *)

Module User.
Record t := mk {
  id : string;
  display_name : option string;
  email : option string
}.
End User.

Module GroupMember.
(** [user] is the ORM relationship the aggregation loads with [joinedload]. *)
Record t := mk {
  group_id : string;
  user_id : string;
  status : string;
  user : User.t
}.
End GroupMember.

Module Expense.
(** [deleted_at] is the soft-deletion timestamp, [None] for a live row. *)
Record t := mk {
  id : string;
  group_id : string;
  payer_id : string;
  amount_inr : Z;
  deleted_at : option Z
}.
End Expense.

Module ExpenseSplit.
Record t := mk {
  expense_id : string;
  user_id : string;
  amount_inr : Z
}.
End ExpenseSplit.

Module Settlement.
Record t := mk {
  group_id : string;
  from_user_id : string;
  to_user_id : string;
  amount_inr : Z;
  status : string
}.
End Settlement.

(** The tables a [Session] gives access to. *)
Record Session := mkSession {
  users : list User.t;
  group_members : list GroupMember.t;
  expenses : list Expense.t;
  expense_splits : list ExpenseSplit.t;
  settlements : list Settlement.t
}.

(** ** Response schemas ([app/api/v1/schemas.py]) *)

Record BalanceResponse := mkBalance {
  user_id : string;
  user_name : string;
  balance_inr : Z;
  balance_currency : Z;
  currency : string
}.

Record DebtSimplification := mkDebt {
  from_user_id : string;
  from_user_name : string;
  to_user_id : string;
  to_user_name : string;
  amount : Z;
  debt_currency : string
}.

Global Instance BalanceResponse_eq_dec : EqDecision BalanceResponse.
Proof. solve_decision. Defined.

Global Instance DebtSimplification_eq_dec : EqDecision DebtSimplification.
Proof. solve_decision. Defined.

(** ** Query helpers *)

(** Python's [a or b] on an optional string: [None] and the empty string are
    both falsy. *)
Definition str_or (a : option string) (b : string) : string :=
  match a with
  | Some s => if decide (s = "") then b else s
  | None => b
  end.

(** [SELECT key, COALESCE(SUM(value), 0) ... GROUP BY key] read into a dict:
    one entry per distinct key, holding the sum of its rows. *)
Definition group_by_sum (rows : list (string * Z)) : gmap string Z :=
  foldr (λ row acc, <[row.1 := default 0 (acc !! row.1) + row.2]> acc) ∅ rows.

(** [Expense.group_id == group_id, Expense.deleted_at.is_(None)] *)
Definition live_in (group_id : string) (e : Expense.t) : Prop :=
  Expense.group_id e = group_id ∧ Expense.deleted_at e = None.

Global Instance live_in_dec group_id e : Decision (live_in group_id e).
Proof. unfold live_in. apply _. Defined.

(** [ExpenseSplit JOIN Expense ON Expense.id == ExpenseSplit.expense_id]:
    one row per matching pair; the [WHERE] clause is a [filter] on it. *)
Definition join_splits (db : Session) : list (ExpenseSplit.t * Expense.t) :=
  s ← expense_splits db;
  e ← expenses db;
  if decide (Expense.id e = ExpenseSplit.expense_id s) then [(s, e)] else [].

(** [func.sum] over a column, [0] on no rows ([COALESCE(SUM(...), 0)]). *)
Definition sumZ (l : list Z) : Z := foldr Z.add 0 l.

Definition completed (group_id : string) (s : Settlement.t) : Prop :=
  Settlement.group_id s = group_id ∧ Settlement.status s = "completed".

Global Instance completed_dec group_id s : Decision (completed group_id s).
Proof. unfold completed. apply _. Defined.

(** ** [calculate_group_balances] *)

Definition active_members (group_id : string) (db : Session) : list GroupMember.t :=
  filter (λ m, GroupMember.group_id m = group_id ∧ GroupMember.status m = "active")
         (group_members db).

Definition member_names (members : list GroupMember.t) : gmap string string :=
  foldl (λ names member,
           <[GroupMember.user_id member :=
               str_or (User.display_name (GroupMember.user member))
                 (str_or (User.email (GroupMember.user member))
                    (GroupMember.user_id member))]> names)
        ∅ members.

Definition payer_totals (group_id : string) (db : Session) : gmap string Z :=
  group_by_sum ((λ e, (Expense.payer_id e, Expense.amount_inr e))
                  <$> filter (live_in group_id) (expenses db)).

Definition split_totals (group_id : string) (db : Session) : gmap string Z :=
  group_by_sum ((λ row, (ExpenseSplit.user_id row.1, ExpenseSplit.amount_inr row.1))
                  <$> filter (λ row, live_in group_id row.2) (join_splits db)).

Definition settlement_outgoing (group_id : string) (db : Session) : gmap string Z :=
  group_by_sum ((λ s, (Settlement.from_user_id s, Settlement.amount_inr s))
                  <$> filter (completed group_id) (settlements db)).

Definition settlement_incoming (group_id : string) (db : Session) : gmap string Z :=
  group_by_sum ((λ s, (Settlement.to_user_id s, Settlement.amount_inr s))
                  <$> filter (completed group_id) (settlements db)).

(** Names of the users that are referenced but are not active members, then
    the [setdefault] fallback to the id itself. *)
Definition backfill_names (db : Session) (all_user_ids : gset string)
    (names : gmap string string) : gmap string string :=
  let missing := filter (λ uid, names !! uid = None) (elements all_user_ids) in
  let names' :=
    foldl (λ acc u,
             <[User.id u := str_or (User.display_name u)
                              (str_or (User.email u) (User.id u))]> acc)
          names (filter (λ u, User.id u ∈ missing) (users db)) in
  foldl (λ acc uid, match acc !! uid with Some _ => acc | None => <[uid := uid]> acc end)
        names' (elements all_user_ids).

(** [for user_id, total in totals.items(): balances[user_id] += sign * total]
    on the [defaultdict] of balances. *)
Definition add_totals (sign : Z) (totals balances : gmap string Z) : gmap string Z :=
  map_fold (λ uid total acc, <[uid := default 0 (acc !! uid) + sign * total]> acc)
           balances totals.

Definition group_balance_map (group_id : string) (db : Session)
    (all_user_ids : gset string) : gmap string Z :=
  let balances := gset_to_gmap 0 all_user_ids in
  let balances := add_totals 1 (payer_totals group_id db) balances in
  let balances := add_totals (-1) (split_totals group_id db) balances in
  let balances := add_totals 1 (settlement_outgoing group_id db) balances in
  add_totals (-1) (settlement_incoming group_id db) balances.

(** [set(user_names.keys()) | set(payer_totals.keys()) | ...] *)
Definition all_user_ids (group_id : string) (db : Session)
    (user_names : gmap string string) : gset string :=
  dom user_names ∪ dom (payer_totals group_id db)
    ∪ dom (split_totals group_id db)
    ∪ dom (settlement_outgoing group_id db)
    ∪ dom (settlement_incoming group_id db).

(** One [BalanceResponse] per item of the balances dict.  [user_names[user_id]]
    cannot miss: every id of the dict was given a name by then (lemma
    [backfill_names_total]). *)
Definition balance_responses (user_names : gmap string string)
    (balances : gmap string Z) : list BalanceResponse :=
  (λ item, mkBalance item.1 (default item.1 (user_names !! item.1)) item.2 item.2 "INR")
    <$> map_to_list balances.

(** The computation of [calculate_group_balances] (lines 44-151), which runs
    on a cache miss.  The dict and set iteration orders of Python are not
    fixed by the program; the order of the result is that of
    [map_to_list]. *)
Definition calculate_group_balances (group_id : string) (db : Session)
    : list BalanceResponse :=
  let members := active_members group_id db in
  match members with
  | [] => []
  | _ =>
    let user_names := member_names members in
    let all_user_ids := all_user_ids group_id db user_names in
    let user_names := backfill_names db all_user_ids user_names in
    let balances := group_balance_map group_id db all_user_ids in
    balance_responses user_names balances
  end.

(** ** [simplify_debts] *)

(** An entry of the [creditors] and [debtors] work lists:
    [(user_id, user_name, amount)]. *)
Abbreviation entry := (string * string * Z)%type.

(** [list.sort(key=lambda x: x[2], reverse=True)]: descending by amount and
    stable, so entries with equal amounts keep their input order. *)
Fixpoint insert_desc (x : entry) (l : list entry) : list entry :=
  match l with
  | [] => [x]
  | y :: l' => if decide (x.2 < y.2) then y :: insert_desc x l' else x :: l
  end.

Definition sort_desc (l : list entry) : list entry := foldr insert_desc [] l.

(** The variables of the cursor loop. *)
Record loop_state := mkLoop {
  creditors : list entry;
  debtors : list entry;
  i : nat;
  j : nat;
  simplified_debts : list DebtSimplification
}.

(** How a run of the loop ends: it returns, an index is out of range, or the
    iteration budget of the model is used up. *)
Inductive outcome (A : Type) : Type :=
  | Returned (a : A)
  | IndexError
  | OutOfFuel.
Arguments Returned {A} a.
Arguments IndexError {A}.
Arguments OutOfFuel {A}.

(** [while i < len(creditors) and j < len(debtors)] *)
Definition loop_guard (st : loop_state) : Prop :=
  (i st < length (creditors st))%nat ∧ (j st < length (debtors st))%nat.

Global Instance loop_guard_dec st : Decision (loop_guard st).
Proof. unfold loop_guard. apply _. Defined.

(** One iteration of the loop body; [None] when [creditors[i]] or
    [debtors[j]] is out of range.  The two tests that move the cursors read
    [creditors[i][2]] and [debtors[j][2]] back right after they were
    assigned, that is the remainders just stored. *)
Definition loop_body (st : loop_state) : option loop_state :=
  match creditors st !! i st, debtors st !! j st with
  | Some (creditor_id, creditor_name, creditor_amount),
    Some (debtor_id, debtor_name, debtor_amount) =>
      let amount := Z.min creditor_amount debtor_amount in
      let simplified_debts :=
        if decide (1 < amount)
        then simplified_debts st
               ++ [mkDebt debtor_id debtor_name creditor_id creditor_name amount "INR"]
        else simplified_debts st in
      let creditors :=
        <[i st := (creditor_id, creditor_name, creditor_amount - amount)]> (creditors st) in
      let debtors :=
        <[j st := (debtor_id, debtor_name, debtor_amount - amount)]> (debtors st) in
      let i := if decide (creditor_amount - amount ≤ 1) then S (i st) else i st in
      let j := if decide (debtor_amount - amount ≤ 1) then S (j st) else j st in
      Some (mkLoop creditors debtors i j simplified_debts)
  | _, _ => None
  end.

Fixpoint while_loop (fuel : nat) (st : loop_state) : outcome (list DebtSimplification) :=
  if decide (loop_guard st) then
    match fuel with
    | O => OutOfFuel
    | S fuel' =>
        match loop_body st with
        | Some st' => while_loop fuel' st'
        | None => IndexError
        end
    end
  else Returned (simplified_debts st).

Definition initial_state (balances : list BalanceResponse) : loop_state :=
  let creditors :=
    (λ b, (user_id b, user_name b, balance_inr b))
      <$> filter (λ b, 0 < balance_inr b) balances in
  let debtors :=
    (λ b, (user_id b, user_name b, - balance_inr b))
      <$> filter (λ b, balance_inr b < 0) balances in
  mkLoop (sort_desc creditors) (sort_desc debtors) 0 0 [].

(** [simplify_debts] run for at most [fuel] iterations of its loop. *)
Definition simplify_debts_in (fuel : nat) (balances : list BalanceResponse)
    : outcome (list DebtSimplification) :=
  while_loop fuel (initial_state balances).

(** Every iteration moves a cursor, so one iteration per balance is enough
    (lemma [simplify_debts_returns]). *)
Definition simplify_debts (balances : list BalanceResponse)
    : outcome (list DebtSimplification) :=
  simplify_debts_in (length balances) balances.

(** ** [calculate_user_net_balance] *)

Definition active_group_ids (user_id : string) (db : Session) : list string :=
  GroupMember.group_id
    <$> filter (λ m, GroupMember.user_id m = user_id ∧ GroupMember.status m = "active")
               (group_members db).

(** The computation of [calculate_user_net_balance] (lines 238-295 and the
    final [return]), which runs on a cache miss. *)
Definition calculate_user_net_balance (user_id : string) (db : Session) : Z :=
  let group_ids := active_group_ids user_id db in
  match group_ids with
  | [] => 0
  | _ =>
    let total_paid :=
      sumZ (Expense.amount_inr
              <$> filter (λ e, Expense.payer_id e = user_id
                               ∧ Expense.deleted_at e = None
                               ∧ Expense.group_id e ∈ group_ids)
                         (expenses db)) in
    let total_owed :=
      sumZ ((λ row, ExpenseSplit.amount_inr row.1)
              <$> filter (λ row, ExpenseSplit.user_id row.1 = user_id
                                 ∧ Expense.deleted_at row.2 = None
                                 ∧ Expense.group_id row.2 ∈ group_ids)
                         (join_splits db)) in
    let settlements_paid :=
      sumZ (Settlement.amount_inr
              <$> filter (λ s, Settlement.from_user_id s = user_id
                               ∧ Settlement.status s = "completed"
                               ∧ Settlement.group_id s ∈ group_ids)
                         (settlements db)) in
    let settlements_received :=
      sumZ (Settlement.amount_inr
              <$> filter (λ s, Settlement.to_user_id s = user_id
                               ∧ Settlement.status s = "completed"
                               ∧ Settlement.group_id s ∈ group_ids)
                         (settlements db)) in
    total_paid - total_owed + settlements_paid - settlements_received
  end.

(** ** The read-through cache

    Both service functions first look their key up in Redis and return a
    hit as it is; on a miss they compute, store the result and return it.
    A [Redis] value holds the two key families, [balance:group:<id>] and
    [balance:user:<id>], with the stored JSON and decimal strings read back
    as the values they encode (a failing Redis behaves as an empty one whose
    writes are lost).  The early [return []] of the group aggregation
    happens before the store. *)
Record Redis := mkRedis {
  group_keys : gmap string (list BalanceResponse);
  user_keys : gmap string Z
}.

Definition calculate_group_balances_cached (group_id : string) (db : Session)
    (r : Redis) : list BalanceResponse * Redis :=
  match group_keys r !! group_id with
  | Some cached_balances => (cached_balances, r)
  | None =>
      let result := calculate_group_balances group_id db in
      match active_members group_id db with
      | [] => (result, r)
      | _ => (result, mkRedis (<[group_id := result]> (group_keys r)) (user_keys r))
      end
  end.

Definition calculate_user_net_balance_cached (user_id : string) (db : Session)
    (r : Redis) : Z * Redis :=
  match user_keys r !! user_id with
  | Some cached_balance => (cached_balance, r)
  | None =>
      let total_balance := calculate_user_net_balance user_id db in
      match active_group_ids user_id db with
      | [] => (total_balance, r)
      | _ => (total_balance,
              mkRedis (group_keys r) (<[user_id := total_balance]> (user_keys r)))
      end
  end.

(** Both stores are [setex] with a lifetime: 300 s for the balances of a
    group ("Cache the result for 5 minutes", line 162) and 120 s for the net
    balance of a user (line 309).  A [Redis] value carries no clock; the end
    of a lifetime is the removal of the key, and [expire] is Redis dropping
    the keys whose lifetime has run out between two calls. *)
Definition expire (gone_groups gone_users : gset string) (r : Redis) : Redis :=
  mkRedis (filter (λ kv, kv.1 ∉ gone_groups) (group_keys r))
          (filter (λ kv, kv.1 ∉ gone_users) (user_keys r)).

(** ** Cache invalidation

    [invalidate_group_balance_cache] deletes the group's key;
    [invalidate_user_balance_cache] deletes the user's key and then the key
    of every group in which the user is an active member, read from a
    session on the same tables.  Both are modelled for a Redis that answers:
    when it raises, the functions swallow the exception and the store stays
    as it was. *)
Definition invalidate_group_balance_cache (group_id : string) (r : Redis) : Redis :=
  mkRedis (delete group_id (group_keys r)) (user_keys r).

Definition invalidate_user_balance_cache (user_id : string) (db : Session)
    (r : Redis) : Redis :=
  let r := mkRedis (group_keys r) (delete user_id (user_keys r)) in
  let memberships :=
    filter (λ m, GroupMember.user_id m = user_id ∧ GroupMember.status m = "active")
           (group_members db) in
  foldl (λ r membership,
           invalidate_group_balance_cache (GroupMember.group_id membership) r)
        r memberships.

(** ** [get_group_expense_summary] *)

Record ExpenseSummary := mkSummary {
  total_amount : Z;
  expense_count : nat;
  unique_payers : nat;
  summary_currency : string
}.

Definition get_group_expense_summary (group_id : string) (db : Session)
    : ExpenseSummary :=
  let expenses := filter (live_in group_id) (expenses db) in
  let total_amount := sumZ (Expense.amount_inr <$> expenses) in
  let expense_count := length expenses in
  let payers : gset string := list_to_set (Expense.payer_id <$> expenses) in
  mkSummary total_amount expense_count (size payers) "INR".

(** ** The pending-dues check of the group endpoints

    [remove_member] and [leave_group] ([api/v1/endpoints/groups.py]) look the
    user up in the balances of the group,
    [next((b for b in balances if b.user_id == user_id), None)], and find
    dues pending when there is such a record and its [balance_inr] is not
    zero.  [leave_group] then answers 409; [remove_member] raises the same
    error inside a [try] whose [except Exception] discards it. *)
Definition pending_dues (balances : list BalanceResponse) (uid : string) : bool :=
  match head (filter (λ b, user_id b = uid) balances) with
  | Some my_balance => bool_decide (balance_inr my_balance ≠ 0)
  | None => false
  end.

(** * Vocabulary of the statements *)

(** ** Sums over dicts and rows *)

(** The sum of the values of a dict. *)
Definition sum_values (m : gmap string Z) : Z := sumZ ((map_to_list m).*2).

(** The sum of the rows of one key. *)
Definition key_sum (k : string) (rows : list (string * Z)) : Z :=
  sumZ ((filter (λ row, row.1 = k) rows).*2).

(** ** Positions and participants *)

(** What a user paid, owes, sent and received in a group, as plain sums over
    the rows the aggregation selects. *)
Definition paid (group_id : string) (db : Session) (u : string) : Z :=
  sumZ (Expense.amount_inr
          <$> filter (λ e, live_in group_id e ∧ Expense.payer_id e = u) (expenses db)).

Definition owed (group_id : string) (db : Session) (u : string) : Z :=
  sumZ ((λ row, ExpenseSplit.amount_inr row.1)
          <$> filter (λ row, live_in group_id row.2 ∧ ExpenseSplit.user_id row.1 = u)
                     (join_splits db)).

Definition sent (group_id : string) (db : Session) (u : string) : Z :=
  sumZ (Settlement.amount_inr
          <$> filter (λ s, completed group_id s ∧ Settlement.from_user_id s = u)
                     (settlements db)).

Definition received (group_id : string) (db : Session) (u : string) : Z :=
  sumZ (Settlement.amount_inr
          <$> filter (λ s, completed group_id s ∧ Settlement.to_user_id s = u)
                     (settlements db)).

Definition net_position (group_id : string) (db : Session) (u : string) : Z :=
  paid group_id db u - owed group_id db u + sent group_id db u - received group_id db u.

(** The users the selected rows mention. *)
Definition payers (group_id : string) (db : Session) : gset string :=
  list_to_set (Expense.payer_id <$> filter (live_in group_id) (expenses db)).

Definition split_users (group_id : string) (db : Session) : gset string :=
  list_to_set ((λ row, ExpenseSplit.user_id row.1)
                 <$> filter (λ row, live_in group_id row.2) (join_splits db)).

Definition settlement_parties (group_id : string) (db : Session) : gset string :=
  list_to_set (Settlement.from_user_id <$> filter (completed group_id) (settlements db))
  ∪ list_to_set (Settlement.to_user_id <$> filter (completed group_id) (settlements db)).

Definition member_ids (group_id : string) (db : Session) : gset string :=
  list_to_set (GroupMember.user_id <$> active_members group_id db).

(** The balances dict the aggregation builds for a group. *)
Definition group_balances (gid : string) (db : Session) : gmap string Z :=
  group_balance_map gid db (all_user_ids gid db (member_names (active_members gid db))).

(** The splits of an expense. *)
Definition splits_of (db : Session) (e : Expense.t) : list ExpenseSplit.t :=
  filter (λ s, ExpenseSplit.expense_id s = Expense.id e) (expense_splits db).

(** The upstream contract on splits: those of every expense that is not
    deleted add up to its amount. *)
Definition splits_cover_expenses (db : Session) : Prop :=
  ∀ e, e ∈ expenses db → Expense.deleted_at e = None
       → sumZ (ExpenseSplit.amount_inr <$> splits_of db e) = Expense.amount_inr e.

(** The union the aggregation is specified to report on: the active members
    and every payer, split participant and settlement party of the rows it
    selects. *)
Definition referenced_users (group_id : string) (db : Session) : gset string :=
  member_ids group_id db ∪ payers group_id db ∪ split_users group_id db
    ∪ settlement_parties group_id db.

Definition output_ids (group_id : string) (db : Session) : gset string :=
  list_to_set (user_id <$> calculate_group_balances group_id db).

(** The balance a list of records reports for a user ([0] when it has no
    record of the user). *)
Definition balance_in (out : list BalanceResponse) (u : string) : Z :=
  sumZ (balance_inr <$> filter (λ b, user_id b = u) out).

(** The membership table has a row of the user in the group whose status
    is "active". *)
Definition active_in (db : Session) (user_id group_id : string) : Prop :=
  Exists (λ m, GroupMember.user_id m = user_id
               ∧ GroupMember.group_id m = group_id
               ∧ GroupMember.status m = "active")
         (group_members db).

#[global] Instance active_in_dec db user_id group_id :
  Decision (active_in db user_id group_id).
Proof. unfold active_in. apply _. Defined.

(** The groups of the membership table, each once. *)
Definition groups_with_members (db : Session) : list string :=
  remove_dups (GroupMember.group_id <$> group_members db).

(** ** Writes to the tables *)

(** [db.add(settlement)] *)
Definition add_settlement (s : Settlement.t) (db : Session) : Session :=
  mkSession (users db) (group_members db) (expenses db) (expense_splits db)
            (settlements db ++ [s]).

(** [db.add(expense)] followed by [db.add_all(splits)] *)
Definition add_expense (e : Expense.t) (splits : list ExpenseSplit.t)
    (db : Session) : Session :=
  mkSession (users db) (group_members db) (expenses db ++ [e])
            (expense_splits db ++ splits) (settlements db).

(** Rows the [WHERE] clause rejects whenever they involve the expense [e]. *)
Definition rejects (R : ExpenseSplit.t * Expense.t → Prop) (e : Expense.t) : Prop :=
  ∀ s, ¬ R (s, e).

(** ** Measures of the simplifier *)

(** What is left of the two work lists past the cursors. *)
Definition remaining_entries (st : loop_state) : nat :=
  (length (creditors st) - i st) + (length (debtors st) - j st).

(** The balances that are not zero. *)
Definition nonzero_balances (balances : list BalanceResponse) : list BalanceResponse :=
  filter (λ b, balance_inr b ≠ 0) balances.

(** The amounts a list of transfers moves out of and into the hands of a
    user, and the user's net position once every transfer is applied: each
    transfer reduces what its debtor owes and what its creditor is owed. *)
Definition transfers_from (u : string) (transfers : list DebtSimplification) : Z :=
  sumZ (amount <$> filter (λ t, from_user_id t = u) transfers).

Definition transfers_to (u : string) (transfers : list DebtSimplification) : Z :=
  sumZ (amount <$> filter (λ t, to_user_id t = u) transfers).

Definition net_after (balances : list BalanceResponse)
    (transfers : list DebtSimplification) (u : string) : Z :=
  balance_in balances u + transfers_from u transfers - transfers_to u transfers.

(** The amounts of a work list that belong to the users selected by [P]. *)
Definition weight (P : string → bool) (l : list entry) : Z :=
  sumZ ((λ x, if P x.1.1 then x.2 else 0) <$> l).

Definition sent_to (P : string → bool) (transfers : list DebtSimplification) : Z :=
  sumZ ((λ t, if P (to_user_id t) then amount t else 0) <$> transfers).

Definition sent_from (P : string → bool) (transfers : list DebtSimplification) : Z :=
  sumZ ((λ t, if P (from_user_id t) then amount t else 0) <$> transfers).

Definition everyone : string → bool := λ _, true.

(** What the loop maintains, relative to the sorted work lists [cs] and [ds]
    it starts from: remainders never go negative; no user is sent, or
    receives, more than their entries held; and what has been taken off the
    entries behind each cursor without being transferred is at most 0.01 per
    cursor move. *)
Record settled (cs ds : list entry) (st : loop_state) : Prop := mkSettled {
  settled_creditors_nonneg : Forall (λ x, 0 ≤ x.2) (creditors st);
  settled_debtors_nonneg : Forall (λ x, 0 ≤ x.2) (debtors st);
  settled_to : ∀ P, sent_to P (simplified_debts st) + weight P (creditors st)
                    ≤ weight P cs;
  settled_from : ∀ P, sent_from P (simplified_debts st) + weight P (debtors st)
                      ≤ weight P ds;
  settled_creditor_dust :
    weight everyone cs - sent_to everyone (simplified_debts st)
      - weight everyone (drop (i st) (creditors st))
    ≤ Z.of_nat (i st + j st);
  settled_debtor_dust :
    weight everyone ds - sent_from everyone (simplified_debts st)
      - weight everyone (drop (j st) (debtors st))
    ≤ Z.of_nat (i st + j st);
  settled_lengths :
    length (creditors st) = length cs ∧ length (debtors st) = length ds
    ∧ (i st ≤ length cs)%nat ∧ (j st ≤ length ds)%nat
}.

(** ** Further writes, cache states and measures *)

(** [db.add(member)] *)
Definition add_member (m : GroupMember.t) (db : Session) : Session :=
  mkSession (users db) (group_members db ++ [m]) (expenses db) (expense_splits db)
            (settlements db).

(** [expense.deleted_at = now] on the expense with the given id
    ([delete_expense]). *)
Definition mark_deleted (expense_id : string) (now : Z) (db : Session) : Session :=
  mkSession (users db) (group_members db)
    ((λ e, if decide (Expense.id e = expense_id)
           then Expense.mk (Expense.id e) (Expense.group_id e) (Expense.payer_id e)
                           (Expense.amount_inr e) (Some now)
           else e) <$> expenses db)
    (expense_splits db) (settlements db).

(** The tables without the expense of the given id. *)
Definition without_expense (expense_id : string) (db : Session) : Session :=
  mkSession (users db) (group_members db)
    (filter (λ e, Expense.id e ≠ expense_id) (expenses db))
    (expense_splits db) (settlements db).

(** [settlement.status = status] on the settlement in row [k]
    ([complete_settlement], [cancel_settlement]). *)
Definition set_settlement_status (k : nat) (status : string) (db : Session) : Session :=
  mkSession (users db) (group_members db) (expenses db) (expense_splits db)
    (alter (λ s, Settlement.mk (Settlement.group_id s) (Settlement.from_user_id s)
                               (Settlement.to_user_id s) (Settlement.amount_inr s)
                               status)
           k (settlements db)).

(** Every stored group entry is what the aggregation computes on the
    tables. *)
Definition fresh_groups (db : Session) (r : Redis) : Prop :=
  ∀ g cached, group_keys r !! g = Some cached
              → cached = calculate_group_balances g db.

(** Every stored user entry is what the personal aggregate computes on the
    tables. *)
Definition fresh_users (db : Session) (r : Redis) : Prop :=
  ∀ u cached, user_keys r !! u = Some cached
              → cached = calculate_user_net_balance u db.

(** What the balances say a user is owed, and owes. *)
Definition credit (u : string) (balances : list BalanceResponse) : Z :=
  sumZ (balance_inr <$> filter (λ b, user_id b = u ∧ 0 < balance_inr b) balances).

Definition debt (u : string) (balances : list BalanceResponse) : Z :=
  sumZ ((λ b, - balance_inr b)
          <$> filter (λ b, user_id b = u ∧ balance_inr b < 0) balances).

(** The part of an expense its splits do not account for. *)
Definition uncovered (db : Session) (e : Expense.t) : Z :=
  Expense.amount_inr e - sumZ (ExpenseSplit.amount_inr <$> splits_of db e).

(** [user.display_name or user.email or user.id], the name the backfill gives
    a user who is not an active member. *)
Definition user_row_name (u : User.t) : string :=
  str_or (User.display_name u) (str_or (User.email u) (User.id u)).

(** [member.user.display_name or member.user.email or member.user_id] *)
Definition member_name (m : GroupMember.t) : string :=
  str_or (User.display_name (GroupMember.user m))
         (str_or (User.email (GroupMember.user m)) (GroupMember.user_id m)).

(** The identities on the work lists never change, and every transfer runs
    from an entry of the debtors' list to an entry of the creditors'. *)
Record directed (cs ds : list entry) (st : loop_state) : Prop := mkDirected {
  directed_creditors : (creditors st).*1 = cs.*1;
  directed_debtors : (debtors st).*1 = ds.*1;
  directed_transfers :
    Forall (λ t, (to_user_id t, to_user_name t) ∈ cs.*1
                 ∧ (from_user_id t, from_user_name t) ∈ ds.*1
                 ∧ 0 < amount t)
           (simplified_debts st)
}.

(** ** Scenarios *)

Module Scenario.

Definition user_a := User.mk "user_a" (Some "User A") (Some "user_a@example.com").
Definition user_b := User.mk "user_b" (Some "User B") (Some "user_b@example.com").
Definition user_c := User.mk "user_c" (Some "User C") (Some "user_c@example.com").

(** A pays 300.00, split equally between A, B and C. *)
Definition dinner := Expense.mk "expense_1" "group_1" "user_a" 30000 None.

Definition dinner_splits : list ExpenseSplit.t :=
  [ExpenseSplit.mk "expense_1" "user_a" 10000;
   ExpenseSplit.mk "expense_1" "user_b" 10000;
   ExpenseSplit.mk "expense_1" "user_c" 10000].

Definition trip : Session :=
  mkSession [user_a; user_b; user_c]
    [GroupMember.mk "group_1" "user_a" "active" user_a;
     GroupMember.mk "group_1" "user_b" "active" user_b;
     GroupMember.mk "group_1" "user_c" "active" user_c]
    [dinner] dinner_splits [].

(** B pays A 100.00. *)
Definition b_pays_a (status : string) : Settlement.t :=
  Settlement.mk "group_1" "user_b" "user_a" 10000 status.

Definition trip_settled : Session := add_settlement (b_pays_a "completed") trip.

(** The same group after B was removed with the dinner unsettled. *)
Definition trip_b_removed : Session :=
  mkSession [user_a; user_b; user_c]
    [GroupMember.mk "group_1" "user_a" "active" user_a;
     GroupMember.mk "group_1" "user_b" "removed" user_b;
     GroupMember.mk "group_1" "user_c" "active" user_c]
    [dinner] dinner_splits [].

(** The same group with no active member left. *)
Definition trip_abandoned : Session :=
  mkSession [user_a; user_b; user_c]
    [GroupMember.mk "group_1" "user_a" "left" user_a;
     GroupMember.mk "group_1" "user_b" "removed" user_b;
     GroupMember.mk "group_1" "user_c" "left" user_c]
    [dinner] dinner_splits [].

(** A deleted expense with its splits. *)
Definition taxi := Expense.mk "expense_2" "group_1" "user_b" 4500 (Some 1700000000).

Definition taxi_splits : list ExpenseSplit.t :=
  [ExpenseSplit.mk "expense_2" "user_a" 1500;
   ExpenseSplit.mk "expense_2" "user_c" 3000].

Definition balance_of (u : User.t) (amount : Z) : BalanceResponse :=
  mkBalance (User.id u) (default "" (User.display_name u)) amount amount "INR".

Definition transfer (debtor creditor : User.t) (amount : Z) : DebtSimplification :=
  mkDebt (User.id debtor) (default "" (User.display_name debtor))
         (User.id creditor) (default "" (User.display_name creditor)) amount "INR".

(** Creditors of 0.03, 0.03 and 0.02 against debtors of 0.04 and 0.04. *)
Definition small_change : list BalanceResponse :=
  [mkBalance "a" "A" 3 3 "INR"; mkBalance "b" "B" 3 3 "INR";
   mkBalance "c" "C" 2 2 "INR"; mkBalance "d" "D" (-4) (-4) "INR";
   mkBalance "e" "E" (-4) (-4) "INR"].

Definition small_change_transfers : list DebtSimplification :=
  [mkDebt "d" "D" "a" "A" 3 "INR"; mkDebt "e" "E" "b" "B" 3 "INR"].

End Scenario.

(** ** Further scenarios *)

Module Cases.

(** The dinner of the trip with the last split one hundredth short. *)
Definition short_split : Session :=
  mkSession (users Scenario.trip) (group_members Scenario.trip) [Scenario.dinner]
    [ExpenseSplit.mk "expense_1" "user_a" 10000;
     ExpenseSplit.mk "expense_1" "user_b" 10000;
     ExpenseSplit.mk "expense_1" "user_c" 9999] [].

(** The trip with a fourth member who took no part in anything. *)
Definition user_d := User.mk "user_d" None (Some "user_d@example.com").

Definition trip_with_guest : Session :=
  add_member (GroupMember.mk "group_1" "user_d" "active" user_d) Scenario.trip.

(** The trip with B's payment recorded and not yet completed. *)
Definition trip_pending : Session :=
  add_settlement (Scenario.b_pays_a "pending") Scenario.trip.

(** Redis after one read of the trip's balances through an empty cache. *)
Definition cold : Redis := mkRedis ∅ ∅.

Definition warm : Redis :=
  (calculate_group_balances_cached "group_1" Scenario.trip cold).2.

Definition warm_user : Redis :=
  (calculate_user_net_balance_cached "user_a" Scenario.trip cold).2.

(** A second group next to the trip: A paid a lunch of 50.00 that C owes in
    full, got 20.00 of it back from C, and has left the group since. *)
Definition lunch := Expense.mk "expense_3" "group_2" "user_a" 5000 None.

Definition lunch_splits : list ExpenseSplit.t :=
  [ExpenseSplit.mk "expense_3" "user_c" 5000].

Definition c_pays_a (amount : Z) : Settlement.t :=
  Settlement.mk "group_2" "user_c" "user_a" amount "completed".

Definition two_groups : Session :=
  mkSession (users Scenario.trip)
    (group_members Scenario.trip
       ++ [GroupMember.mk "group_2" "user_a" "left" Scenario.user_a;
           GroupMember.mk "group_2" "user_c" "active" Scenario.user_c])
    [Scenario.dinner; lunch]
    (Scenario.dinner_splits ++ lunch_splits)
    [c_pays_a 2000].

End Cases.

(** * Properties *)

(** ** Sums *)

Lemma sumZ_nil : sumZ [] = 0.
Proof. done. Qed.

Lemma sumZ_cons (x : Z) (l : list Z) : sumZ (x :: l) = x + sumZ l.
Proof. done. Qed.

Lemma sumZ_app (l1 l2 : list Z) : sumZ (l1 ++ l2) = sumZ l1 + sumZ l2.
Proof. induction l1 as [|x l1 IH]; simpl; lia. Qed.

Lemma sumZ_perm (l1 l2 : list Z) : l1 ≡ₚ l2 → sumZ l1 = sumZ l2.
Proof. induction 1; simpl; lia. Qed.

Lemma sum_values_empty : sum_values ∅ = 0.
Proof. unfold sum_values. by rewrite map_to_list_empty. Qed.

Lemma sum_values_insert_fresh (m : gmap string Z) k x :
  m !! k = None → sum_values (<[k := x]> m) = x + sum_values m.
Proof.
  intros Hk. unfold sum_values.
  rewrite (sumZ_perm _ (((k, x) :: map_to_list m).*2)); [done|].
  apply fmap_Permutation. by apply map_to_list_insert.
Qed.

Lemma sum_values_insert (m : gmap string Z) k x :
  sum_values (<[k := x]> m) = x + sum_values m - default 0 (m !! k).
Proof.
  destruct (m !! k) as [v|] eqn:Hk; simpl.
  - rewrite <- (insert_delete_eq m k x).
    rewrite <- (insert_delete_id m k v Hk) at 2.
    rewrite !sum_values_insert_fresh by apply lookup_delete_eq. lia.
  - rewrite sum_values_insert_fresh by done. lia.
Qed.

Lemma sum_values_gset_to_gmap (X : gset string) : sum_values (gset_to_gmap 0 X) = 0.
Proof.
  induction X as [|x X Hx IH] using set_ind_L.
  - by rewrite gset_to_gmap_empty, sum_values_empty.
  - rewrite gset_to_gmap_union_singleton, sum_values_insert_fresh; [lia|].
    by apply lookup_gset_to_gmap_None.
Qed.

(** ** [GROUP BY] *)

Lemma group_by_sum_cons k v rows :
  group_by_sum ((k, v) :: rows)
  = <[k := default 0 (group_by_sum rows !! k) + v]> (group_by_sum rows).
Proof. done. Qed.

Lemma key_sum_cons k k' v rows :
  key_sum k ((k', v) :: rows)
  = (if decide (k' = k) then v else 0) + key_sum k rows.
Proof.
  unfold key_sum. rewrite filter_cons. simpl.
  destruct (decide (k' = k)); [rewrite fmap_cons|]; simpl; lia.
Qed.

Lemma key_sum_absent k rows : k ∉ rows.*1 → key_sum k rows = 0.
Proof.
  induction rows as [|[k' v] rows IH]; [done|].
  rewrite fmap_cons, not_elem_of_cons, key_sum_cons. simpl.
  intros [Hne Hk]. rewrite decide_False by done. rewrite IH by done. lia.
Qed.

Lemma group_by_sum_lookup rows k :
  group_by_sum rows !! k
  = if decide (k ∈ rows.*1) then Some (key_sum k rows) else None.
Proof.
  induction rows as [|[k' v] rows IH].
  - rewrite decide_False by apply not_elem_of_nil. apply lookup_empty.
  - rewrite group_by_sum_cons, fmap_cons, key_sum_cons. simpl.
    destruct (decide (k' = k)) as [->|Hne].
    + rewrite decide_True by (apply elem_of_cons; by left).
      rewrite lookup_insert_eq, IH. f_equal. case_decide as Hk; simpl; [lia|].
      rewrite key_sum_absent by done. lia.
    + rewrite lookup_insert_ne, IH by done.
      destruct (decide (k ∈ rows.*1)) as [Hk|Hk].
      * rewrite (decide_True (P := k ∈ k' :: rows.*1)) by (apply elem_of_cons; by right).
        done.
      * rewrite (decide_False (P := k ∈ k' :: rows.*1)); [done|].
        rewrite not_elem_of_cons. split; congruence.
Qed.

Lemma group_by_sum_dom rows : dom (group_by_sum rows) = list_to_set rows.*1.
Proof.
  apply set_eq. intros k. rewrite elem_of_dom, group_by_sum_lookup, elem_of_list_to_set.
  case_decide; [by split; eauto | split; [by intros [? ?] | done]].
Qed.

Lemma group_by_sum_default rows k :
  default 0 (group_by_sum rows !! k) = key_sum k rows.
Proof.
  rewrite group_by_sum_lookup. case_decide as Hk; [done|].
  by rewrite key_sum_absent.
Qed.

Lemma group_by_sum_total rows : sum_values (group_by_sum rows) = sumZ rows.*2.
Proof.
  induction rows as [|[k v] rows IH].
  - apply sum_values_empty.
  - rewrite group_by_sum_cons, sum_values_insert, IH, fmap_cons. simpl. lia.
Qed.

(** ** Folding totals into the balances *)

Lemma add_totals_spec sign totals balances :
  (∀ k, add_totals sign totals balances !! k
        = match totals !! k with
          | Some v => Some (default 0 (balances !! k) + sign * v)
          | None => balances !! k
          end)
  ∧ sum_values (add_totals sign totals balances)
    = sum_values balances + sign * sum_values totals.
Proof.
  unfold add_totals.
  apply (map_fold_weak_ind (λ r m,
    (∀ k, r !! k = match m !! k with
                   | Some v => Some (default 0 (balances !! k) + sign * v)
                   | None => balances !! k
                   end)
    ∧ sum_values r = sum_values balances + sign * sum_values m)).
  - split; [intros k; by rewrite lookup_empty | rewrite sum_values_empty; lia].
  - intros k v m r Hk [IHl IHs]. split.
    + intros k'. destruct (decide (k = k')) as [<-|Hne].
      * rewrite !lookup_insert_eq. by rewrite IHl, Hk.
      * rewrite !lookup_insert_ne by done. apply IHl.
    + rewrite sum_values_insert, IHs, sum_values_insert_fresh by done. lia.
Qed.

Lemma add_totals_lookup sign totals balances k :
  add_totals sign totals balances !! k
  = match totals !! k with
    | Some v => Some (default 0 (balances !! k) + sign * v)
    | None => balances !! k
    end.
Proof. apply add_totals_spec. Qed.

Lemma add_totals_total sign totals balances :
  sum_values (add_totals sign totals balances)
  = sum_values balances + sign * sum_values totals.
Proof. apply add_totals_spec. Qed.

Lemma add_totals_default sign totals balances k :
  default 0 (add_totals sign totals balances !! k)
  = default 0 (balances !! k) + sign * default 0 (totals !! k).
Proof. rewrite add_totals_lookup. destruct (totals !! k); simpl; lia. Qed.

Lemma add_totals_dom sign totals balances :
  dom (add_totals sign totals balances) = dom balances ∪ dom totals.
Proof.
  apply set_eq. intros k.
  rewrite elem_of_union, !elem_of_dom, add_totals_lookup.
  destruct (totals !! k) eqn:Ht.
  - split; [intros _; right; eauto | eauto].
  - split; [by left | intros [?|[? ?]]; done].
Qed.

(** ** Reading the aggregates as sums over rows *)

Lemma sumZ_fmap_add {A} (f g : A → Z) (l : list A) :
  sumZ ((λ x, f x + g x) <$> l) = sumZ (f <$> l) + sumZ (g <$> l).
Proof. induction l as [|x l IH]; [done|]. rewrite !fmap_cons. simpl. lia. Qed.

Lemma sumZ_fmap_ext {A} (f g : A → Z) (l : list A) :
  (∀ x, x ∈ l → f x = g x) → sumZ (f <$> l) = sumZ (g <$> l).
Proof.
  induction l as [|x l IH]; [done|]. intros Hfg. rewrite !fmap_cons. simpl.
  rewrite IH, (Hfg x); [done| |]; [apply elem_of_cons; by left|].
  intros y Hy. apply Hfg, elem_of_cons. by right.
Qed.

Lemma sumZ_filter {A} (val : A → Z) (Q : A → Prop) `{∀ x, Decision (Q x)} (l : list A) :
  sumZ (val <$> filter Q l) = sumZ ((λ x, if decide (Q x) then val x else 0) <$> l).
Proof.
  induction l as [|x l IH]; [done|].
  rewrite filter_cons, (fmap_cons (λ x, if decide (Q x) then val x else 0)), sumZ_cons.
  destruct (decide (Q x)); [rewrite fmap_cons, sumZ_cons|]; lia.
Qed.

Lemma key_sum_fmap_filter {A} (key : A → string) (val : A → Z)
    (P : A → Prop) `{∀ x, Decision (P x)} (l : list A) (u : string) :
  key_sum u ((λ x, (key x, val x)) <$> filter P l)
  = sumZ (val <$> filter (λ x, P x ∧ key x = u) l).
Proof.
  induction l as [|x l IH]; [done|].
  rewrite !filter_cons. destruct (decide (P x)) as [HP|HP].
  - rewrite fmap_cons, key_sum_cons, IH.
    destruct (decide (key x = u)) as [Hk|Hk].
    + rewrite decide_True by done. by rewrite fmap_cons.
    + rewrite decide_False by tauto. lia.
  - rewrite decide_False by tauto. apply IH.
Qed.

Lemma snd_fmap_pair {A} (key : A → string) (val : A → Z) (l : list A) :
  ((λ x, (key x, val x)) <$> l).*2 = val <$> l.
Proof. induction l as [|x l IH]; [done|]. rewrite !fmap_cons. simpl. by f_equal. Qed.

Lemma fst_fmap_pair {A} (key : A → string) (val : A → Z) (l : list A) :
  ((λ x, (key x, val x)) <$> l).*1 = key <$> l.
Proof. induction l as [|x l IH]; [done|]. rewrite !fmap_cons. simpl. by f_equal. Qed.

Lemma payer_totals_default gid db u :
  default 0 (payer_totals gid db !! u) = paid gid db u.
Proof. unfold payer_totals, paid. by rewrite group_by_sum_default, key_sum_fmap_filter. Qed.

Lemma split_totals_default gid db u :
  default 0 (split_totals gid db !! u) = owed gid db u.
Proof.
  unfold split_totals, owed.
  by rewrite group_by_sum_default,
     (key_sum_fmap_filter (λ row, ExpenseSplit.user_id row.1)
                          (λ row, ExpenseSplit.amount_inr row.1)).
Qed.

Lemma settlement_outgoing_default gid db u :
  default 0 (settlement_outgoing gid db !! u) = sent gid db u.
Proof.
  unfold settlement_outgoing, sent.
  by rewrite group_by_sum_default, key_sum_fmap_filter.
Qed.

Lemma settlement_incoming_default gid db u :
  default 0 (settlement_incoming gid db !! u) = received gid db u.
Proof.
  unfold settlement_incoming, received.
  by rewrite group_by_sum_default, key_sum_fmap_filter.
Qed.

Lemma payer_totals_dom gid db : dom (payer_totals gid db) = payers gid db.
Proof. unfold payer_totals, payers. by rewrite group_by_sum_dom, fst_fmap_pair. Qed.

Lemma split_totals_dom gid db : dom (split_totals gid db) = split_users gid db.
Proof.
  unfold split_totals, split_users.
  by rewrite group_by_sum_dom,
     (fst_fmap_pair (λ row, ExpenseSplit.user_id row.1)
                    (λ row, ExpenseSplit.amount_inr row.1)).
Qed.

Lemma settlement_dom gid db :
  dom (settlement_outgoing gid db) ∪ dom (settlement_incoming gid db)
  = settlement_parties gid db.
Proof.
  unfold settlement_outgoing, settlement_incoming, settlement_parties.
  by rewrite !group_by_sum_dom, !fst_fmap_pair.
Qed.

Lemma member_names_dom members :
  dom (member_names members) = list_to_set (GroupMember.user_id <$> members).
Proof.
  unfold member_names.
  enough (∀ acc : gmap string string,
    dom (foldl (λ names member,
           <[GroupMember.user_id member :=
               str_or (User.display_name (GroupMember.user member))
                 (str_or (User.email (GroupMember.user member))
                    (GroupMember.user_id member))]> names) acc members)
    = dom acc ∪ list_to_set (GroupMember.user_id <$> members)) as Hgen.
  { rewrite Hgen, dom_empty_L. set_solver. }
  induction members as [|m members IH]; intros acc.
  - simpl. set_solver.
  - rewrite fmap_cons. simpl. rewrite IH, dom_insert_L. set_solver.
Qed.

(** ** The balances dict *)

Lemma group_balance_map_default gid db X u :
  default 0 (group_balance_map gid db X !! u) = net_position gid db u.
Proof.
  unfold group_balance_map, net_position.
  rewrite !add_totals_default, lookup_gset_to_gmap.
  rewrite payer_totals_default, split_totals_default,
    settlement_outgoing_default, settlement_incoming_default.
  destruct (guard (u ∈ X)); simpl; lia.
Qed.

Lemma group_balance_map_dom gid db X :
  dom (group_balance_map gid db X)
  = X ∪ payers gid db ∪ split_users gid db ∪ settlement_parties gid db.
Proof.
  unfold group_balance_map.
  rewrite !add_totals_dom, dom_gset_to_gmap.
  rewrite payer_totals_dom, split_totals_dom, <- settlement_dom. set_solver.
Qed.

Lemma group_balance_map_total gid db X :
  sum_values (group_balance_map gid db X)
  = sumZ (Expense.amount_inr <$> filter (live_in gid) (expenses db))
    - sumZ ((λ row, ExpenseSplit.amount_inr row.1)
              <$> filter (λ row, live_in gid row.2) (join_splits db)).
Proof.
  unfold group_balance_map.
  rewrite !add_totals_total, sum_values_gset_to_gmap.
  unfold payer_totals, split_totals, settlement_outgoing, settlement_incoming.
  rewrite !group_by_sum_total, !snd_fmap_pair.
  lia.
Qed.

Lemma all_user_ids_eq gid db :
  all_user_ids gid db (member_names (active_members gid db))
  = member_ids gid db ∪ payers gid db ∪ split_users gid db ∪ settlement_parties gid db.
Proof.
  unfold all_user_ids, member_ids.
  rewrite member_names_dom, payer_totals_dom, split_totals_dom, <- settlement_dom.
  set_solver.
Qed.

Lemma group_balances_lookup gid db u :
  group_balances gid db !! u
  = if decide (u ∈ member_ids gid db ∪ payers gid db ∪ split_users gid db
                    ∪ settlement_parties gid db)
    then Some (net_position gid db u) else None.
Proof.
  pose proof (group_balance_map_default gid db
    (all_user_ids gid db (member_names (active_members gid db))) u) as Hdef.
  pose proof (group_balance_map_dom gid db
    (all_user_ids gid db (member_names (active_members gid db)))) as Hdom.
  unfold group_balances. rewrite all_user_ids_eq in Hdom, Hdef |- *.
  case_decide as Hu.
  - match type of Hdom with dom ?m = _ =>
      assert (u ∈ dom m) as [v Hv]%elem_of_dom by (rewrite Hdom; set_solver)
    end.
    rewrite Hv in Hdef |- *. simpl in Hdef. by subst.
  - apply not_elem_of_dom. rewrite Hdom. set_solver.
Qed.

Lemma calculate_group_balances_unfold gid db :
  calculate_group_balances gid db
  = match active_members gid db with
    | [] => []
    | _ => balance_responses
             (backfill_names db
                (all_user_ids gid db (member_names (active_members gid db)))
                (member_names (active_members gid db)))
             (group_balances gid db)
    end.
Proof.
  unfold calculate_group_balances, group_balances.
  destruct (active_members gid db); reflexivity.
Qed.

Lemma balance_responses_ids names balances :
  user_id <$> balance_responses names balances = (map_to_list balances).*1.
Proof.
  unfold balance_responses. rewrite <- list_fmap_compose. by apply list_fmap_ext.
Qed.

Lemma balance_responses_amounts names balances :
  balance_inr <$> balance_responses names balances = (map_to_list balances).*2.
Proof.
  unfold balance_responses. rewrite <- list_fmap_compose. by apply list_fmap_ext.
Qed.

Lemma elem_of_balance_responses names balances b :
  b ∈ balance_responses names balances
  → balances !! user_id b = Some (balance_inr b).
Proof.
  unfold balance_responses. intros (item & -> & Hitem)%list_elem_of_fmap. simpl.
  destruct item as [k v]. by apply elem_of_map_to_list in Hitem.
Qed.

(** Every record of the output carries the net position of its user. *)
Lemma calculate_group_balances_amount gid db b :
  b ∈ calculate_group_balances gid db
  → balance_inr b = net_position gid db (user_id b).
Proof.
  rewrite calculate_group_balances_unfold.
  destruct (active_members gid db); [by intros ?%elem_of_nil|].
  intros Hb%elem_of_balance_responses.
  rewrite group_balances_lookup in Hb. case_decide; congruence.
Qed.

(** After the backfill every referenced user has a name. *)
Lemma backfill_names_total db (ids : gset string) names uid :
  uid ∈ ids → is_Some (backfill_names db ids names !! uid).
Proof.
  intros Hin. unfold backfill_names.
  assert (∀ l (acc : gmap string string),
    uid ∈ l ∨ is_Some (acc !! uid)
    → is_Some (foldl (λ acc uid, match acc !! uid with
                                 | Some _ => acc
                                 | None => <[uid := uid]> acc
                                 end) acc l !! uid)) as Hfold.
  { induction l as [|k l IH]; intros acc Hk.
    - destruct Hk as [Hk|Hk]; [by apply elem_of_nil in Hk | done].
    - simpl. apply IH. destruct Hk as [[->|Hl]%elem_of_cons|Hacc].
      + right. destruct (acc !! k) eqn:Hk; [by rewrite Hk | by rewrite lookup_insert_eq].
      + by left.
      + right. destruct (acc !! k) eqn:Hk; [done|].
        rewrite lookup_insert_ne; [done|]. intros ->. rewrite Hk in Hacc.
        by destruct Hacc. }
  apply Hfold. left. by apply elem_of_elements.
Qed.

(** ** The zero-sum invariant *)

Lemma join_one_split_sum (P : Expense.t → Prop) `{∀ e, Decision (P e)}
    (s : ExpenseSplit.t) (es : list Expense.t) :
  sumZ ((λ row : ExpenseSplit.t * Expense.t, ExpenseSplit.amount_inr row.1)
          <$> filter (λ row, P row.2)
                (es ≫= λ e, if decide (Expense.id e = ExpenseSplit.expense_id s)
                            then [(s, e)] else []))
  = sumZ ((λ e, if decide (ExpenseSplit.expense_id s = Expense.id e)
                then ExpenseSplit.amount_inr s else 0) <$> filter P es).
Proof.
  induction es as [|e es IH]; [done|].
  rewrite bind_cons, filter_app, fmap_app, sumZ_app, IH, (filter_cons P).
  destruct (decide (P e)) as [HP|HP]; [rewrite fmap_cons, sumZ_cons|];
    destruct (decide (Expense.id e = ExpenseSplit.expense_id s)) as [Hid|Hid].
  - rewrite decide_True by done.
    rewrite filter_cons_True, filter_nil, fmap_cons, fmap_nil by done.
    rewrite sumZ_cons, sumZ_nil. simpl. lia.
  - rewrite decide_False by congruence. by rewrite filter_nil, fmap_nil, sumZ_nil.
  - rewrite filter_cons_False, filter_nil, fmap_nil, sumZ_nil by done. lia.
  - rewrite filter_nil, fmap_nil, sumZ_nil. lia.
Qed.

(** Summing the joined rows split by split is summing them expense by
    expense. *)
Lemma join_splits_sum (P : Expense.t → Prop) `{∀ e, Decision (P e)} (db : Session) :
  sumZ ((λ row, ExpenseSplit.amount_inr row.1)
          <$> filter (λ row, P row.2) (join_splits db))
  = sumZ ((λ e, sumZ (ExpenseSplit.amount_inr <$> splits_of db e))
            <$> filter P (expenses db)).
Proof.
  unfold join_splits, splits_of.
  induction (expense_splits db) as [|s ss IH].
  - simpl. induction (filter P (expenses db)) as [|e es IHes]; [done|].
    rewrite fmap_cons. simpl. by rewrite <- IHes.
  - rewrite bind_cons, filter_app, fmap_app, sumZ_app, IH, join_one_split_sum.
    rewrite <- sumZ_fmap_add. apply sumZ_fmap_ext. intros e _.
    rewrite filter_cons. destruct (decide (ExpenseSplit.expense_id s = Expense.id e)).
    + by rewrite fmap_cons.
    + lia.
Qed.

(** C1 (zero-sum invariant).  Whenever the splits of each non-deleted expense
    add up to the expense's amount, the amounts of the [Balance] records the
    aggregation returns for a group add up to exactly zero. *)
Theorem zero_sum_invariant (group_id : string) (db : Session) :
  splits_cover_expenses db
  → sumZ (balance_inr <$> calculate_group_balances group_id db) = 0.
Proof.
  intros Hcover. rewrite calculate_group_balances_unfold.
  destruct (active_members group_id db); [done|].
  rewrite balance_responses_amounts.
  change (sum_values (group_balances group_id db) = 0).
  unfold group_balances.
  rewrite group_balance_map_total, (join_splits_sum (live_in group_id)).
  rewrite (sumZ_fmap_ext (λ e, sumZ (ExpenseSplit.amount_inr <$> splits_of db e))
                         Expense.amount_inr); [lia|].
  intros e [[_ Hlive] He]%list_elem_of_filter. by apply Hcover.
Qed.

(** ** Who appears in the output *)

Lemma balance_in_perm out1 out2 u :
  out1 ≡ₚ out2 → balance_in out1 u = balance_in out2 u.
Proof. intros Hp. unfold balance_in. apply sumZ_perm. by rewrite Hp. Qed.

Lemma balance_in_responses names (m : gmap string Z) u :
  balance_in (balance_responses names m) u = default 0 (m !! u).
Proof.
  induction m as [|k v m Hk IH] using map_ind.
  - unfold balance_responses. by rewrite map_to_list_empty, lookup_empty.
  - rewrite (balance_in_perm _
      (mkBalance k (default k (names !! k)) v v "INR" :: balance_responses names m)).
    2:{ unfold balance_responses. rewrite map_to_list_insert by done.
        by rewrite fmap_cons. }
    unfold balance_in in *. rewrite filter_cons. simpl.
    destruct (decide (k = u)) as [->|Hne].
    + rewrite lookup_insert_eq, fmap_cons, sumZ_cons, IH, Hk. simpl. lia.
    + by rewrite lookup_insert_ne, IH.
Qed.

Lemma balance_in_calculate gid db u :
  active_members gid db ≠ []
  → balance_in (calculate_group_balances gid db) u = net_position gid db u.
Proof.
  intros Hm. rewrite calculate_group_balances_unfold.
  destruct (active_members gid db); [done|].
  rewrite balance_in_responses. apply group_balance_map_default.
Qed.

Lemma calculate_group_balances_nonempty gid db b :
  b ∈ calculate_group_balances gid db → active_members gid db ≠ [].
Proof.
  rewrite calculate_group_balances_unfold.
  destruct (active_members gid db); [by intros ?%elem_of_nil | done].
Qed.

Lemma output_ids_eq gid db :
  active_members gid db ≠ [] → output_ids gid db = referenced_users gid db.
Proof.
  intros Hm. unfold output_ids. rewrite calculate_group_balances_unfold.
  destruct (active_members gid db) eqn:Hmem; [done|].
  rewrite balance_responses_ids. apply set_eq. intros u.
  rewrite elem_of_list_to_set, list_elem_of_fmap. split.
  - intros ([k v] & -> & Hkv). apply elem_of_map_to_list in Hkv. simpl.
    rewrite group_balances_lookup in Hkv. by case_decide.
  - intros Hu. exists (u, net_position gid db u). split; [done|].
    apply elem_of_map_to_list. rewrite group_balances_lookup.
    by rewrite decide_True.
Qed.

Lemma calculate_group_balances_NoDup gid db :
  NoDup (user_id <$> calculate_group_balances gid db).
Proof.
  rewrite calculate_group_balances_unfold.
  destruct (active_members gid db); [constructor|].
  rewrite balance_responses_ids. apply NoDup_fst_map_to_list.
Qed.

(** The union rule behind the guard of lines 54-56.  In a group with at
    least one active member the
    user ids of the output are exactly the active members together with every
    payer, split participant and settlement party of the non-deleted expenses,
    their splits and the completed settlements; each of them has one record,
    and it carries what the user paid minus what they owe plus the completed
    settlements they sent minus those they received.  In particular a user
    who left the group keeps a record with that balance. *)
Theorem union_rule (group_id : string) (db : Session) :
  active_members group_id db ≠ []
  → output_ids group_id db = referenced_users group_id db
    ∧ NoDup (user_id <$> calculate_group_balances group_id db)
    ∧ ∀ u, u ∈ referenced_users group_id db
           → ∃ b, b ∈ calculate_group_balances group_id db
                  ∧ user_id b = u
                  ∧ balance_inr b = net_position group_id db u.
Proof.
  intros Hm. split; [by apply output_ids_eq|].
  split; [apply calculate_group_balances_NoDup|].
  intros u Hu. rewrite <- output_ids_eq in Hu by done.
  unfold output_ids in Hu.
  apply elem_of_list_to_set, list_elem_of_fmap in Hu as (b & -> & Hb).
  exists b. split; [done|]. split; [done|].
  by apply calculate_group_balances_amount.
Qed.

(** ** Changing the tables *)

(** The aggregation reads the tables only through its queries. *)
Lemma calculate_group_balances_ext gid db db' :
  users db = users db'
  → group_members db = group_members db'
  → filter (live_in gid) (expenses db) = filter (live_in gid) (expenses db')
  → filter (λ row, live_in gid row.2) (join_splits db)
    = filter (λ row, live_in gid row.2) (join_splits db')
  → filter (completed gid) (settlements db) = filter (completed gid) (settlements db')
  → calculate_group_balances gid db = calculate_group_balances gid db'.
Proof.
  intros Hu Hm He Hj Hs.
  unfold calculate_group_balances, all_user_ids, group_balance_map, backfill_names,
    payer_totals, split_totals, settlement_outgoing, settlement_incoming,
    active_members.
  by rewrite Hu, Hm, He, Hj, Hs.
Qed.




(** ** Deleted expenses *)

Lemma filter_bind {A B} (P : B → Prop) `{∀ y, Decision (P y)}
    (f : A → list B) (l : list A) :
  filter P (l ≫= f) = l ≫= (λ x, filter P (f x)).
Proof.
  induction l as [|x l IH]; [done|].
  by rewrite !bind_cons, filter_app, IH.
Qed.

Lemma join_rejected_expense (R : ExpenseSplit.t * Expense.t → Prop)
    `{∀ row, Decision (R row)} (e : Expense.t) (s : ExpenseSplit.t) es :
  rejects R e
  → filter R ((es ++ [e]) ≫= λ e', if decide (Expense.id e' = ExpenseSplit.expense_id s)
                                   then [(s, e')] else [])
    = filter R (es ≫= λ e', if decide (Expense.id e' = ExpenseSplit.expense_id s)
                            then [(s, e')] else []).
Proof.
  intros He. rewrite bind_app, filter_app, bind_singleton.
  destruct (decide (Expense.id e = ExpenseSplit.expense_id s)).
  - rewrite (filter_cons_False _ (s, e)) by apply He. by rewrite filter_nil, app_nil_r.
  - by rewrite filter_nil, app_nil_r.
Qed.

Lemma join_fresh_split (s : ExpenseSplit.t) es :
  ExpenseSplit.expense_id s ∉ Expense.id <$> es
  → es ≫= (λ e', if decide (Expense.id e' = ExpenseSplit.expense_id s)
                 then [(s, e')] else []) = [].
Proof.
  induction es as [|e' es IH]; [done|].
  rewrite fmap_cons, not_elem_of_cons, bind_cons. intros [Hne Hs].
  rewrite decide_False by congruence. by apply IH.
Qed.

(** Adding an expense whose rows the [WHERE] clause rejects, under a fresh
    id and with splits of its own, adds nothing to the selected rows of the
    join. *)
Lemma join_splits_add_expense (R : ExpenseSplit.t * Expense.t → Prop)
    `{∀ row, Decision (R row)} (e : Expense.t) (splits : list ExpenseSplit.t) db :
  rejects R e
  → Expense.id e ∉ Expense.id <$> expenses db
  → (∀ s, s ∈ splits → ExpenseSplit.expense_id s = Expense.id e)
  → filter R (join_splits (add_expense e splits db)) = filter R (join_splits db).
Proof.
  intros He Hfresh Hsplits. unfold join_splits. simpl.
  rewrite !filter_bind, bind_app.
  rewrite (list_bind_ext _ (λ s, filter R
             (expenses db ≫= λ e', if decide (Expense.id e' = ExpenseSplit.expense_id s)
                                   then [(s, e')] else []))
             (expense_splits db) (expense_splits db)); [|
    intros s; by apply join_rejected_expense | done].
  assert (splits ≫= (λ s, filter R
             ((expenses db ++ [e])
                ≫= λ e', if decide (Expense.id e' = ExpenseSplit.expense_id s)
                         then [(s, e')] else [])) = []) as ->; [|by rewrite app_nil_r].
  induction splits as [|s splits IH]; [done|].
  rewrite bind_cons, IH.
  - rewrite join_rejected_expense, join_fresh_split; [done| |done].
    rewrite (Hsplits s); [done|]. apply elem_of_cons. by left.
  - intros s' Hs'. apply Hsplits, elem_of_cons. by right.
Qed.

(** C6 (deleted-expense frame property).  Adding a soft-deleted expense under
    a fresh id, together with splits that all belong to it, leaves the output
    of the aggregation unchanged. *)
Theorem deleted_expense_frame (group_id : string) (db : Session)
    (e : Expense.t) (splits : list ExpenseSplit.t) :
  Expense.deleted_at e ≠ None
  → Expense.id e ∉ Expense.id <$> expenses db
  → (∀ s, s ∈ splits → ExpenseSplit.expense_id s = Expense.id e)
  → calculate_group_balances group_id (add_expense e splits db)
    = calculate_group_balances group_id db.
Proof.
  intros Hdel Hfresh Hsplits.
  assert (¬ live_in group_id e) as Hdead by (by intros [_ ?]).
  apply calculate_group_balances_ext; try done; simpl.
  - by rewrite filter_app, filter_cons_False, filter_nil, app_nil_r.
  - apply (join_splits_add_expense (λ row, live_in group_id row.2)); try done.
    by intros s.
Qed.

(** ** The cursor loop of [simplify_debts] *)

Lemma loop_body_guarded st :
  loop_guard st
  → ∃ creditor_id creditor_name creditor_amount debtor_id debtor_name debtor_amount,
      creditors st !! i st = Some (creditor_id, creditor_name, creditor_amount)
      ∧ debtors st !! j st = Some (debtor_id, debtor_name, debtor_amount)
      ∧ loop_body st
        = Some (mkLoop
            (<[i st := (creditor_id, creditor_name,
                        creditor_amount - Z.min creditor_amount debtor_amount)]>
               (creditors st))
            (<[j st := (debtor_id, debtor_name,
                        debtor_amount - Z.min creditor_amount debtor_amount)]>
               (debtors st))
            (if decide (creditor_amount - Z.min creditor_amount debtor_amount ≤ 1)
             then S (i st) else i st)
            (if decide (debtor_amount - Z.min creditor_amount debtor_amount ≤ 1)
             then S (j st) else j st)
            (if decide (1 < Z.min creditor_amount debtor_amount)
             then simplified_debts st
                    ++ [mkDebt debtor_id debtor_name creditor_id creditor_name
                               (Z.min creditor_amount debtor_amount) "INR"]
             else simplified_debts st)).
Proof.
  intros [Hi Hj].
  apply lookup_lt_is_Some_2 in Hi as [[[cid cn] ca] Hc].
  apply lookup_lt_is_Some_2 in Hj as [[[did dn] da] Hd].
  exists cid, cn, ca, did, dn, da. unfold loop_body. by rewrite Hc, Hd.
Qed.

(** An iteration never fails under the loop guard, keeps the lists' lengths,
    moves each cursor by at most one and at least one of them by one. *)
Lemma loop_body_progress st :
  loop_guard st
  → ∃ st', loop_body st = Some st'
           ∧ length (creditors st') = length (creditors st)
           ∧ length (debtors st') = length (debtors st)
           ∧ (i st ≤ i st' ≤ S (i st))%nat
           ∧ (j st ≤ j st' ≤ S (j st))%nat
           ∧ (i st + j st < i st' + j st')%nat
           ∧ (length (simplified_debts st') ≤ S (length (simplified_debts st)))%nat.
Proof.
  intros Hg.
  destruct (loop_body_guarded st Hg) as (cid & cn & ca & did & dn & da & _ & _ & ->).
  eexists. split; [done|]. simpl. rewrite !length_insert.
  repeat case_decide; rewrite ?length_app; simpl; lia.
Qed.

Lemma while_loop_returns fuel st :
  (remaining_entries st ≤ fuel)%nat
  → ∃ transfers, while_loop fuel st = Returned transfers.
Proof.
  revert st. induction fuel as [|fuel IH]; intros st Hfuel; simpl.
  - case_decide as Hg; [|by eexists].
    destruct Hg. unfold remaining_entries in Hfuel. lia.
  - case_decide as Hg; [|by eexists].
    destruct (loop_body_progress st Hg) as (st' & -> & Hc & Hd & Hi & Hj & Hij & _).
    apply IH. unfold remaining_entries in *. destruct Hg. rewrite Hc, Hd. lia.
Qed.

Lemma while_loop_fuel fuel fuel' st :
  (remaining_entries st ≤ fuel)%nat → (remaining_entries st ≤ fuel')%nat
  → while_loop fuel st = while_loop fuel' st.
Proof.
  revert fuel' st. induction fuel as [|fuel IH]; intros fuel' st Hf Hf'.
  - destruct fuel'; simpl; case_decide as Hg; try done.
    destruct Hg. unfold remaining_entries in Hf. lia.
  - destruct fuel'; simpl; case_decide as Hg; try done.
    + destruct Hg. unfold remaining_entries in Hf'. lia.
    + destruct (loop_body_progress st Hg) as (st' & -> & Hc & Hd & Hi & Hj & Hij & _).
      apply IH; unfold remaining_entries in *; destruct Hg; rewrite Hc, Hd; lia.
Qed.

(** Invariant reasoning about a run that returns. *)
Lemma while_loop_invariant (Inv : loop_state → Prop) fuel st transfers :
  (∀ st st', Inv st → loop_guard st → loop_body st = Some st' → Inv st')
  → Inv st
  → while_loop fuel st = Returned transfers
  → ∃ st_end, Inv st_end ∧ ¬ loop_guard st_end
              ∧ simplified_debts st_end = transfers.
Proof.
  intros Hstep. revert st. induction fuel as [|fuel IH]; intros st Hinv; simpl.
  - case_decide; [done|]. intros [= <-]. by exists st.
  - case_decide as Hg; [|intros [= <-]; by exists st].
    destruct (loop_body st) as [st'|] eqn:Hbody; [|done].
    apply IH. by eapply Hstep.
Qed.

(** The sort keeps the entries. *)
Lemma insert_desc_perm x l : insert_desc x l ≡ₚ x :: l.
Proof.
  induction l as [|y l IH]; [done|]. simpl. case_decide; [|done].
  rewrite IH. apply perm_swap.
Qed.

Lemma sort_desc_perm l : sort_desc l ≡ₚ l.
Proof.
  induction l as [|x l IH]; [done|]. simpl. by rewrite insert_desc_perm, IH.
Qed.

Lemma sort_desc_length l : length (sort_desc l) = length l.
Proof. by rewrite sort_desc_perm. Qed.

Lemma creditors_debtors_count balances :
  (length (filter (λ b, (0 < balance_inr b)%Z) balances)
   + length (filter (λ b, (balance_inr b < 0)%Z) balances)
   = length (nonzero_balances balances))%nat.
Proof.
  unfold nonzero_balances. induction balances as [|b bs IH]; [done|].
  rewrite !filter_cons. repeat case_decide; simpl; lia.
Qed.

Lemma initial_state_remaining balances :
  remaining_entries (initial_state balances) = length (nonzero_balances balances).
Proof.
  unfold remaining_entries, initial_state. simpl.
  rewrite !sort_desc_length, !length_fmap, !Nat.sub_0_r.
  apply creditors_debtors_count.
Qed.

Lemma nonzero_balances_length balances :
  (length (nonzero_balances balances) ≤ length balances)%nat.
Proof. apply length_filter. Qed.

Lemma filter_none {A} (P Q : A → Prop) `{∀ x, Decision (P x)} (l : list A) :
  Forall Q l → (∀ x, Q x → ¬ P x) → filter P l = [].
Proof.
  intros HQ HPQ. induction HQ as [|x l Hx _ IH]; [done|].
  rewrite filter_cons_False by by apply HPQ. apply IH.
Qed.

(** C8 (totality of the simplifier).  On every list of balances, balanced or
    not, [simplify_debts] returns a list of transfers: no index is out of
    range and one iteration per balance suffices, whatever larger budget the
    loop is given.  Under the loop guard an iteration always succeeds and
    advances at least one of the two cursors, each by at most one; and when
    one of the work lists is empty (no creditor, or no debtor) nothing is
    emitted, whatever the other list holds. *)
Theorem simplify_debts_total (balances : list BalanceResponse) :
  (∃ transfers, simplify_debts balances = Returned transfers)
  ∧ (∀ fuel, (length balances ≤ fuel)%nat
             → simplify_debts_in fuel balances = simplify_debts balances)
  ∧ (∀ st, loop_guard st
           → ∃ st', loop_body st = Some st'
                    ∧ (i st ≤ i st' ≤ S (i st))%nat
                    ∧ (j st ≤ j st' ≤ S (j st))%nat
                    ∧ (i st + j st < i st' + j st')%nat)
  ∧ ((Forall (λ b, 0 ≤ balance_inr b) balances
      ∨ Forall (λ b, balance_inr b ≤ 0) balances)
     → simplify_debts balances = Returned []).
Proof.
  pose proof (nonzero_balances_length balances) as Hlen.
  split; [|split; [|split]].
  - apply while_loop_returns. rewrite initial_state_remaining. lia.
  - intros fuel Hfuel. apply while_loop_fuel; rewrite initial_state_remaining; lia.
  - intros st Hg.
    destruct (loop_body_progress st Hg) as (st' & Hb & _ & _ & Hi & Hj & Hij & _).
    by exists st'.
  - intros Hside. unfold simplify_debts, simplify_debts_in.
    assert (¬ loop_guard (initial_state balances)) as Hg.
    { unfold loop_guard, initial_state. simpl.
      rewrite !sort_desc_length, !length_fmap.
      destruct Hside as [Hpos|Hneg].
      - rewrite (filter_none (λ b, balance_inr b < 0) (λ b, 0 ≤ balance_inr b));
          [simpl; lia | done | intros; lia].
      - rewrite (filter_none (λ b, 0 < balance_inr b) (λ b, balance_inr b ≤ 0));
          [simpl; lia | done | intros; lia]. }
    destruct (length balances); simpl; by rewrite decide_False.
Qed.

Lemma simplify_debts_returns balances :
  ∃ transfers, simplify_debts balances = Returned transfers.
Proof.
  apply while_loop_returns. rewrite initial_state_remaining.
  apply nonzero_balances_length.
Qed.

(** What holds of every state the loop reaches from the initial one holds of
    the state it stops in, whose transfers are the result. *)
Lemma simplify_debts_invariant (Inv : loop_state → Prop) balances :
  (∀ st st', Inv st → loop_guard st → loop_body st = Some st' → Inv st')
  → Inv (initial_state balances)
  → ∃ st_end, simplify_debts balances = Returned (simplified_debts st_end)
              ∧ Inv st_end ∧ ¬ loop_guard st_end.
Proof.
  intros Hstep Hinit. destruct (simplify_debts_returns balances) as [ts Hts].
  destruct (while_loop_invariant Inv _ _ _ Hstep Hinit Hts) as (st & ? & ? & <-).
  by exists st.
Qed.

(** C7 (dust threshold).  Every transfer [simplify_debts] returns has an
    amount strictly above 0.01, so in particular a strictly positive one. *)
Theorem transfers_exceed_dust (balances : list BalanceResponse) :
  ∃ transfers, simplify_debts balances = Returned transfers
               ∧ Forall (λ t, 1 < amount t ∧ 0 < amount t) transfers.
Proof.
  destruct (simplify_debts_invariant
    (λ st, Forall (λ t, 1 < amount t ∧ 0 < amount t) (simplified_debts st))
    balances) as (st & Hres & Hinv & _).
  - intros st st' Hinv Hg Hbody.
    destruct (loop_body_guarded st Hg)
      as (cid & cn & ca & did & dn & da & _ & _ & Heq).
    rewrite Heq in Hbody. injection Hbody as <-. clear Heq. simpl.
    case_decide; [|done]. apply Forall_app. split; [done|].
    apply Forall_singleton. simpl. lia.
  - constructor.
  - by exists (simplified_debts st).
Qed.

(** C4 (transfer count bound).  [simplify_debts] returns at most
    [max(0, N - 1)] transfers, [N] being the number of balances that are not
    zero. *)
Theorem transfer_count_bound (balances : list BalanceResponse) :
  ∃ transfers, simplify_debts balances = Returned transfers
               ∧ Z.of_nat (length transfers)
                 ≤ Z.max 0 (Z.of_nat (length (nonzero_balances balances)) - 1).
Proof.
  destruct (simplify_debts_invariant
    (λ st, (length (simplified_debts st)
            + (if decide (loop_guard st) then remaining_entries st - 1 else 0)
            ≤ length (nonzero_balances balances) - 1)%nat)
    balances) as (st & Hres & Hinv & Hg).
  - intros st st' Hinv Hg Hbody.
    destruct (loop_body_progress st Hg)
      as (st'' & Hbody' & Hc & Hd & Hi & Hj & Hij & Hlen).
    rewrite Hbody in Hbody'. injection Hbody' as <-.
    rewrite decide_True in Hinv by done.
    unfold remaining_entries in *. destruct Hg as [Hgi Hgj].
    case_decide as Hg'; [destruct Hg' as [Hgi' Hgj']|]; rewrite ?Hc, ?Hd in *; lia.
  - rewrite initial_state_remaining. simpl. case_decide; lia.
  - exists (simplified_debts st). split; [done|].
    rewrite decide_False in Hinv by done. lia.
Qed.

(** ** What the transfers settle *)

Lemma weight_cons P x l :
  weight P (x :: l) = (if P x.1.1 then x.2 else 0) + weight P l.
Proof. done. Qed.

Lemma weight_perm P l1 l2 : l1 ≡ₚ l2 → weight P l1 = weight P l2.
Proof. intros Hp. unfold weight. apply sumZ_perm. by rewrite Hp. Qed.

Lemma weight_nonneg P l : Forall (λ x, 0 ≤ x.2) l → 0 ≤ weight P l.
Proof.
  induction 1 as [|x l Hx _ IH]; [done|].
  rewrite weight_cons. destruct (P x.1.1); lia.
Qed.

Lemma weight_split P l :
  weight P l + weight (λ u, negb (P u)) l = weight everyone l.
Proof.
  induction l as [|x l IH]; [done|].
  rewrite !weight_cons. unfold everyone in *. destruct (P x.1.1); simpl; lia.
Qed.

Lemma weight_insert P (l : list entry) k uid name a a' :
  l !! k = Some (uid, name, a)
  → weight P (<[k := (uid, name, a')]> l)
    = weight P l + (if P uid then a' - a else 0).
Proof.
  revert k. induction l as [|x l IH]; intros [|k] Hk; try done.
  - injection Hk as ->. simpl. rewrite !weight_cons. simpl. destruct (P uid); lia.
  - simpl in *. rewrite !weight_cons, (IH k Hk). lia.
Qed.

Lemma weight_drop_insert P (l : list entry) k x y :
  l !! k = Some y
  → weight P (drop k (<[k := x]> l))
    = weight P (drop k l) - (if P y.1.1 then y.2 else 0) + (if P x.1.1 then x.2 else 0)
    ∧ weight P (drop (S k) (<[k := x]> l))
      = weight P (drop k l) - (if P y.1.1 then y.2 else 0).
Proof.
  intros Hk. pose proof (lookup_lt_Some _ _ _ Hk) as Hlt.
  rewrite (drop_S l y k Hk), (drop_insert_lt l (S k) k x) by lia.
  rewrite (drop_S (<[k := x]> l) x k) by by apply list_lookup_insert_eq.
  rewrite (drop_insert_lt l (S k) k x) by lia.
  rewrite !weight_cons. lia.
Qed.

Lemma total_drop_insert (l : list entry) k x y :
  l !! k = Some y
  → weight everyone (drop k (<[k := x]> l)) = weight everyone (drop k l) - y.2 + x.2
    ∧ weight everyone (drop (S k) (<[k := x]> l)) = weight everyone (drop k l) - y.2.
Proof. apply (weight_drop_insert everyone). Qed.

Lemma sent_to_snoc P ts t :
  sent_to P (ts ++ [t]) = sent_to P ts + (if P (to_user_id t) then amount t else 0).
Proof. unfold sent_to. rewrite fmap_app, sumZ_app. simpl. lia. Qed.

Lemma sent_from_snoc P ts t :
  sent_from P (ts ++ [t]) = sent_from P ts + (if P (from_user_id t) then amount t else 0).
Proof. unfold sent_from. rewrite fmap_app, sumZ_app. simpl. lia. Qed.

Lemma sent_to_split P ts :
  sent_to P ts + sent_to (λ u, negb (P u)) ts = sent_to everyone ts.
Proof.
  unfold sent_to, everyone. induction ts as [|t ts IH]; [done|].
  rewrite !fmap_cons, !sumZ_cons. destruct (P (to_user_id t)); simpl; lia.
Qed.

Lemma sent_from_split P ts :
  sent_from P ts + sent_from (λ u, negb (P u)) ts = sent_from everyone ts.
Proof.
  unfold sent_from, everyone. induction ts as [|t ts IH]; [done|].
  rewrite !fmap_cons, !sumZ_cons. destruct (P (from_user_id t)); simpl; lia.
Qed.

Lemma sent_everyone ts : sent_to everyone ts = sent_from everyone ts.
Proof. done. Qed.

Lemma sent_to_everyone_snoc ts t :
  sent_to everyone (ts ++ [t]) = sent_to everyone ts + amount t.
Proof. apply (sent_to_snoc everyone). Qed.

Lemma sent_from_everyone_snoc ts t :
  sent_from everyone (ts ++ [t]) = sent_from everyone ts + amount t.
Proof. apply (sent_from_snoc everyone). Qed.

Lemma settled_step cs ds st st' :
  settled cs ds st → loop_guard st → loop_body st = Some st' → settled cs ds st'.
Proof.
  intros [Hcn Hdn Hto Hfrom Hcd Hdd (Hlc & Hld & Hi & Hj)] Hg Hbody.
  destruct (loop_body_guarded st Hg)
    as (cid & cn & ca & did & dn & da & Hc & Hd & Heq).
  rewrite Heq in Hbody. injection Hbody as <-. clear Heq.
  pose proof (Forall_lookup_1 _ _ _ _ Hcn Hc) as Hca.
  pose proof (Forall_lookup_1 _ _ _ _ Hdn Hd) as Hda.
  simpl in Hca, Hda. destruct Hg as [Hgi Hgj].
  destruct (total_drop_insert (creditors st) (i st)
              (cid, cn, ca - Z.min ca da) _ Hc) as [Hc0 Hc1].
  destruct (total_drop_insert (debtors st) (j st)
              (did, dn, da - Z.min ca da) _ Hd) as [Hd0 Hd1].
  simpl in Hc0, Hc1, Hd0, Hd1.
  split; simpl.
  - apply Forall_insert; [done|]. simpl. lia.
  - apply Forall_insert; [done|]. simpl. lia.
  - intros P. specialize (Hto P).
    rewrite (weight_insert P _ _ _ _ _ _ Hc).
    case_decide; rewrite ?sent_to_snoc; simpl; destruct (P cid); lia.
  - intros P. specialize (Hfrom P).
    rewrite (weight_insert P _ _ _ _ _ _ Hd).
    case_decide; rewrite ?sent_from_snoc; simpl; destruct (P did); lia.
  - destruct (decide (1 < Z.min ca da));
      rewrite ?sent_to_everyone_snoc; simpl;
      destruct (decide (ca - Z.min ca da ≤ 1));
      destruct (decide (da - Z.min ca da ≤ 1));
      rewrite ?Hc0, ?Hc1; lia.
  - destruct (decide (1 < Z.min ca da));
      rewrite ?sent_from_everyone_snoc; simpl;
      destruct (decide (ca - Z.min ca da ≤ 1));
      destruct (decide (da - Z.min ca da ≤ 1));
      rewrite ?Hd0, ?Hd1; lia.
  - rewrite !length_insert. repeat case_decide; lia.
Qed.

Lemma initial_weights P balances :
  weight P (creditors (initial_state balances))
    - weight P (debtors (initial_state balances))
  = sumZ ((λ b, if P (user_id b) then balance_inr b else 0) <$> balances).
Proof.
  unfold initial_state. simpl. rewrite !(weight_perm P _ _ (sort_desc_perm _)).
  induction balances as [|b bs IH]; [done|].
  rewrite !filter_cons, fmap_cons, sumZ_cons, <- IH.
  repeat case_decide; rewrite ?fmap_cons, ?weight_cons; simpl;
    destruct (P (user_id b)); lia.
Qed.

Lemma initial_lengths balances :
  (length (creditors (initial_state balances))
   + length (debtors (initial_state balances))
   = length (nonzero_balances balances))%nat.
Proof.
  unfold initial_state. simpl. rewrite !sort_desc_length, !length_fmap.
  apply creditors_debtors_count.
Qed.

Lemma initial_settled balances :
  settled (creditors (initial_state balances)) (debtors (initial_state balances))
          (initial_state balances).
Proof.
  split.
  - unfold initial_state. simpl. rewrite sort_desc_perm.
    apply Forall_fmap, Forall_forall. intros b [Hb _]%list_elem_of_filter.
    unfold compose. simpl. lia.
  - unfold initial_state. simpl. rewrite sort_desc_perm.
    apply Forall_fmap, Forall_forall. intros b [Hb _]%list_elem_of_filter.
    unfold compose. simpl. lia.
  - intros P. change (sent_to P (simplified_debts (initial_state balances))) with 0. lia.
  - intros P. change (sent_from P (simplified_debts (initial_state balances))) with 0. lia.
  - change (i (initial_state balances)) with 0%nat.
    change (j (initial_state balances)) with 0%nat.
    change (sent_to everyone (simplified_debts (initial_state balances))) with 0.
    rewrite drop_0. lia.
  - change (i (initial_state balances)) with 0%nat.
    change (j (initial_state balances)) with 0%nat.
    change (sent_from everyone (simplified_debts (initial_state balances))) with 0.
    rewrite drop_0. lia.
  - change (i (initial_state balances)) with 0%nat.
    change (j (initial_state balances)) with 0%nat. lia.
Qed.

Lemma transfers_to_sent u ts :
  transfers_to u ts = sent_to (λ v, bool_decide (v = u)) ts.
Proof.
  unfold transfers_to, sent_to. rewrite sumZ_filter. apply sumZ_fmap_ext.
  intros t _. case_decide; case_bool_decide; done.
Qed.

Lemma transfers_from_sent u ts :
  transfers_from u ts = sent_from (λ v, bool_decide (v = u)) ts.
Proof.
  unfold transfers_from, sent_from. rewrite sumZ_filter. apply sumZ_fmap_ext.
  intros t _. case_decide; case_bool_decide; done.
Qed.

Lemma balance_in_weights u balances :
  balance_in balances u
  = weight (λ v, bool_decide (v = u)) (creditors (initial_state balances))
    - weight (λ v, bool_decide (v = u)) (debtors (initial_state balances)).
Proof.
  rewrite initial_weights. unfold balance_in. rewrite sumZ_filter.
  apply sumZ_fmap_ext. intros b _. case_decide; case_bool_decide; done.
Qed.

(** C2, as the code has it.  For balances that add up to zero, applying
    every transfer [simplify_debts] returns leaves every user's net position
    within 0.01 times the number of non-zero balances of zero. *)
Theorem simplify_settles_up_to_dust (balances : list BalanceResponse) :
  sumZ (balance_inr <$> balances) = 0
  → ∃ transfers,
      simplify_debts balances = Returned transfers
      ∧ ∀ u, Z.abs (net_after balances transfers u)
             ≤ Z.of_nat (length (nonzero_balances balances)).
Proof.
  intros Hzero.
  destruct (simplify_debts_invariant
    (settled (creditors (initial_state balances)) (debtors (initial_state balances)))
    balances) as (st & Hres & Hinv & Hg).
  { intros st st'. apply settled_step. }
  { apply initial_settled. }
  exists (simplified_debts st). split; [done|]. intros u.
  destruct Hinv as [Hcn Hdn Hto Hfrom Hcd Hdd (Hlc & Hld & Hi & Hj)].
  pose proof (initial_lengths balances) as Hn.
  pose proof (initial_weights everyone balances) as Hall.
  rewrite (sumZ_fmap_ext _ balance_inr) in Hall by done. rewrite Hzero in Hall.
  unfold net_after.
  rewrite balance_in_weights, transfers_to_sent, transfers_from_sent.
  set (P := λ v : string, bool_decide (v = u)).
  pose proof (Hto P) as Hto1. pose proof (Hto (λ v, negb (P v))) as Hto2.
  pose proof (Hfrom P) as Hfrom1. pose proof (Hfrom (λ v, negb (P v))) as Hfrom2.
  pose proof (weight_nonneg P _ Hcn). pose proof (weight_nonneg (λ v, negb (P v)) _ Hcn).
  pose proof (weight_nonneg P _ Hdn). pose proof (weight_nonneg (λ v, negb (P v)) _ Hdn).
  pose proof (weight_split P (creditors (initial_state balances))).
  pose proof (weight_split P (debtors (initial_state balances))).
  pose proof (sent_to_split P (simplified_debts st)).
  pose proof (sent_from_split P (simplified_debts st)).
  pose proof (sent_everyone (simplified_debts st)).
  assert (weight everyone (drop (i st) (creditors st)) = 0
          ∨ weight everyone (drop (j st) (debtors st)) = 0) as Hend.
  { unfold loop_guard in Hg.
    destruct (decide (i st < length (creditors st))%nat);
      [right|left]; rewrite drop_ge; try done; lia. }
  destruct Hend as [Hend|Hend]; rewrite Hend in *; lia.
Qed.

(** ** The personal aggregate *)

(** A sum over the rows of a set of groups is the sum, group by group, of
    the sums over the rows of each. *)
Lemma sum_by_group {A} (grp : A → string) (val : A → Z) (P : A → Prop)
    `{∀ x, Decision (P x)} (groups : list string) (l : list A) :
  NoDup groups
  → sumZ (val <$> filter (λ x, P x ∧ grp x ∈ groups) l)
    = sumZ ((λ g, sumZ (val <$> filter (λ x, P x ∧ grp x = g) l)) <$> groups).
Proof.
  induction 1 as [|g groups Hg Hnd IH].
  - rewrite (filter_none _ (λ _, True)).
    + reflexivity.
    + by apply Forall_true.
    + intros x _ [_ Hx]. by apply elem_of_nil in Hx.
  - rewrite fmap_cons, sumZ_cons, <- IH, !sumZ_filter, <- sumZ_fmap_add.
    apply sumZ_fmap_ext. intros x _.
    repeat case_decide; try lia; exfalso; set_solver.
Qed.

Lemma sum_by_group_iff {A} (grp : A → string) (val : A → Z) (P Q : A → Prop)
    (R : string → A → Prop)
    `{∀ x, Decision (P x), ∀ x, Decision (Q x), ∀ g x, Decision (R g x)}
    (groups : list string) (l : list A) :
  (∀ x, Q x ↔ P x ∧ grp x ∈ groups)
  → (∀ g x, R g x ↔ P x ∧ grp x = g)
  → sumZ (val <$> filter Q l)
    = sumZ ((λ g, sumZ (val <$> filter (R g) l)) <$> remove_dups groups).
Proof.
  intros HQ HR.
  rewrite (list_filter_iff Q (λ x, P x ∧ grp x ∈ remove_dups groups)).
  2:{ intros x. rewrite HQ. by rewrite elem_of_remove_dups. }
  rewrite (sum_by_group grp val P) by apply NoDup_remove_dups.
  apply sumZ_fmap_ext. intros g _. f_equal. f_equal.
  apply list_filter_iff. intros x. by rewrite HR.
Qed.

Lemma sumZ_fmap_net {A} (p o s r : A → Z) (l : list A) :
  sumZ ((λ x, p x - o x + s x - r x) <$> l)
  = sumZ (p <$> l) - sumZ (o <$> l) + sumZ (s <$> l) - sumZ (r <$> l).
Proof. induction l as [|x l IH]; [done|]. rewrite !fmap_cons, !sumZ_cons. lia. Qed.

(** Over the groups in which the user is an active member, the personal
    aggregate is the sum of the user's net positions. *)
Lemma calculate_user_net_balance_by_group uid db :
  calculate_user_net_balance uid db
  = sumZ ((λ g, net_position g db uid) <$> remove_dups (active_group_ids uid db)).
Proof.
  unfold calculate_user_net_balance.
  destruct (active_group_ids uid db) as [|g0 gs] eqn:Hgs; [done|].
  rewrite <- Hgs. clear Hgs g0 gs. unfold net_position.
  rewrite sumZ_fmap_net. unfold paid, owed, sent, received.
  rewrite <- (sum_by_group_iff Expense.group_id Expense.amount_inr
    (λ e, Expense.payer_id e = uid ∧ Expense.deleted_at e = None)
    (λ e, Expense.payer_id e = uid ∧ Expense.deleted_at e = None
          ∧ Expense.group_id e ∈ active_group_ids uid db)
    (λ g e, live_in g e ∧ Expense.payer_id e = uid) (active_group_ids uid db));
    [|intros; tauto|unfold live_in; intros; tauto].
  rewrite <- (sum_by_group_iff (λ row, Expense.group_id row.2)
    (λ row, ExpenseSplit.amount_inr row.1)
    (λ row, ExpenseSplit.user_id row.1 = uid ∧ Expense.deleted_at row.2 = None)
    (λ row, ExpenseSplit.user_id row.1 = uid ∧ Expense.deleted_at row.2 = None
            ∧ Expense.group_id row.2 ∈ active_group_ids uid db)
    (λ g row, live_in g row.2 ∧ ExpenseSplit.user_id row.1 = uid)
    (active_group_ids uid db));
    [|intros; tauto|unfold live_in; intros; tauto].
  rewrite <- (sum_by_group_iff Settlement.group_id Settlement.amount_inr
    (λ s, Settlement.from_user_id s = uid ∧ Settlement.status s = "completed")
    (λ s, Settlement.from_user_id s = uid ∧ Settlement.status s = "completed"
          ∧ Settlement.group_id s ∈ active_group_ids uid db)
    (λ g s, completed g s ∧ Settlement.from_user_id s = uid) (active_group_ids uid db));
    [|intros; tauto|unfold completed; intros; tauto].
  rewrite <- (sum_by_group_iff Settlement.group_id Settlement.amount_inr
    (λ s, Settlement.to_user_id s = uid ∧ Settlement.status s = "completed")
    (λ s, Settlement.to_user_id s = uid ∧ Settlement.status s = "completed"
          ∧ Settlement.group_id s ∈ active_group_ids uid db)
    (λ g s, completed g s ∧ Settlement.to_user_id s = uid) (active_group_ids uid db));
    [|intros; tauto|unfold completed; intros; tauto].
  done.
Qed.

Lemma net_position_add_expense gid e splits db u :
  Expense.group_id e ≠ gid
  → Expense.id e ∉ Expense.id <$> expenses db
  → (∀ s, s ∈ splits → ExpenseSplit.expense_id s = Expense.id e)
  → net_position gid (add_expense e splits db) u = net_position gid db u.
Proof.
  intros Hg Hfresh Hsplits. unfold net_position, paid, owed, sent, received.
  rewrite (join_splits_add_expense
    (λ row, live_in gid row.2 ∧ ExpenseSplit.user_id row.1 = u)); try done.
  2:{ intros s [[? _] _]. done. }
  simpl. rewrite filter_app, filter_cons_False, filter_nil, app_nil_r; [done|].
  by intros [[? _] _].
Qed.

Lemma net_position_other_settlement gid s db u :
  Settlement.group_id s ≠ gid
  → net_position gid (add_settlement s db) u = net_position gid db u.
Proof.
  intros Hg. unfold net_position, paid, owed, sent, received, join_splits. simpl.
  rewrite !filter_app, !(filter_cons_False _ s), !filter_nil, !app_nil_r; [done|..];
    by intros [[? _] _].
Qed.

(** The membership query of lines 239-244 returns the groups in which the
    membership table has an active row of the user. *)
Lemma active_group_ids_rows uid db g :
  g ∈ active_group_ids uid db ↔ active_in db uid g.
Proof.
  unfold active_group_ids, active_in.
  rewrite list_elem_of_fmap, Exists_exists. split.
  - intros (m & -> & [[Hu Hs] Hm]%list_elem_of_filter). by exists m.
  - intros (m & Hm & Hu & Hg & Hs). exists m. split; [done|].
    apply list_elem_of_filter. by split.
Qed.

Lemma active_groups_among_members uid db :
  remove_dups (active_group_ids uid db)
  ≡ₚ filter (active_in db uid) (groups_with_members db).
Proof.
  apply NoDup_Permutation.
  - apply NoDup_remove_dups.
  - apply NoDup_filter, NoDup_remove_dups.
  - intros g. rewrite elem_of_remove_dups, active_group_ids_rows.
    rewrite list_elem_of_filter. unfold groups_with_members.
    rewrite elem_of_remove_dups. split; [|tauto].
    intros Hg. split; [done|]. unfold active_in in Hg.
    apply Exists_exists in Hg as (m & Hm & _ & <- & _).
    apply list_elem_of_fmap. by exists m.
Qed.

(** C10 (personal aggregate).  The groups that count are those in which the
    membership table has a row of the user with status "active": a user
    without such a row has net balance zero; in general the net balance is
    the sum, over the groups of the membership table, of what the user paid
    minus what they owe plus the completed settlements they sent minus those
    they received in the group where the user has an active row of the
    group, and of nothing where they have none; and an expense with its
    splits, or a settlement, recorded in a group in which the user has no
    active row, leaves the net balance unchanged. *)
Theorem personal_aggregate_active_groups (user_id : string) (db : Session) :
  (∀ g, g ∈ active_group_ids user_id db
        ↔ ∃ m, m ∈ group_members db
               ∧ GroupMember.user_id m = user_id
               ∧ GroupMember.group_id m = g
               ∧ GroupMember.status m = "active")
  ∧ ((∀ g, ¬ active_in db user_id g) → calculate_user_net_balance user_id db = 0)
  ∧ calculate_user_net_balance user_id db
    = sumZ ((λ g, if decide (active_in db user_id g)
                  then paid g db user_id - owed g db user_id
                       + sent g db user_id - received g db user_id
                  else 0)
              <$> groups_with_members db)
  ∧ (∀ e splits,
       ¬ active_in db user_id (Expense.group_id e)
       → Expense.id e ∉ Expense.id <$> expenses db
       → (∀ s, s ∈ splits → ExpenseSplit.expense_id s = Expense.id e)
       → calculate_user_net_balance user_id (add_expense e splits db)
         = calculate_user_net_balance user_id db)
  ∧ (∀ s, ¬ active_in db user_id (Settlement.group_id s)
          → calculate_user_net_balance user_id (add_settlement s db)
            = calculate_user_net_balance user_id db).
Proof.
  split; [|split; [|split; [|split]]].
  - intros g. rewrite active_group_ids_rows. unfold active_in.
    by rewrite Exists_exists.
  - intros Hnone. unfold calculate_user_net_balance.
    destruct (active_group_ids user_id db) as [|g gs] eqn:Hgs; [done|].
    destruct (Hnone g). apply active_group_ids_rows. rewrite Hgs.
    apply elem_of_cons. by left.
  - rewrite calculate_user_net_balance_by_group.
    rewrite (sumZ_perm _ _
      (fmap_Permutation (λ g, net_position g db user_id) _ _
         (active_groups_among_members user_id db))).
    by rewrite (sumZ_filter (λ g, net_position g db user_id)).
  - intros e splits Hg Hfresh Hsplits.
    rewrite !calculate_user_net_balance_by_group.
    change (active_group_ids user_id (add_expense e splits db))
      with (active_group_ids user_id db).
    apply sumZ_fmap_ext. intros g Hin. rewrite elem_of_remove_dups in Hin.
    apply net_position_add_expense; try done. intros <-.
    by apply Hg, active_group_ids_rows.
  - intros s Hg. rewrite !calculate_user_net_balance_by_group.
    change (active_group_ids user_id (add_settlement s db))
      with (active_group_ids user_id db).
    apply sumZ_fmap_ext. intros g Hin. rewrite elem_of_remove_dups in Hin.
    apply net_position_other_settlement. intros <-.
    by apply Hg, active_group_ids_rows.
Qed.

(** ** The statements on the scenarios *)

Lemma zero_sum_invariant_witness :
  sumZ (balance_inr <$> calculate_group_balances "group_1" Scenario.trip) = 0.
Proof.
  apply zero_sum_invariant.
  intros e He _. apply list_elem_of_singleton in He as ->. reflexivity.
Defined.

(** C3 (union rule) on a group whose members have all left or been removed
    with the dinner unsettled.  The docstring of [calculate_group_balances]
    promises that "all users involved in expenses are included in balance
    calculations", also when they "are no longer active group members"; the
    early [return []] of lines 54-56 comes before any aggregation, so the
    payer of the dinner, who is owed 200.00, and the two participants, who
    owe 100.00 each, have no record at all. *)
Lemma union_rule_needs_active_member :
  calculate_group_balances "group_1" Scenario.trip_abandoned = []
  ∧ net_position "group_1" Scenario.trip_abandoned "user_a" = 20000
  ∧ net_position "group_1" Scenario.trip_abandoned "user_b" = -10000
  ∧ net_position "group_1" Scenario.trip_abandoned "user_c" = -10000
  ∧ "user_a" ∈ payers "group_1" Scenario.trip_abandoned
  ∧ "user_b" ∈ referenced_users "group_1" Scenario.trip_abandoned
  ∧ output_ids "group_1" Scenario.trip_abandoned
    ≠ referenced_users "group_1" Scenario.trip_abandoned.
Proof.
  assert ("user_b" ∈ referenced_users "group_1" Scenario.trip_abandoned) as Hb.
  { unfold referenced_users. apply elem_of_union_l, elem_of_union_r.
    unfold split_users. apply elem_of_list_to_set.
    apply (bool_decide_unpack _). by vm_compute. }
  split; [reflexivity|]. split; [reflexivity|]. split; [reflexivity|].
  split; [reflexivity|]. split.
  { unfold payers. apply elem_of_list_to_set.
    apply (bool_decide_unpack _). by vm_compute. }
  split; [done|].
  intros Heq. rewrite <- Heq in Hb. by apply elem_of_empty in Hb.
Qed.

Lemma union_rule_witness :
  output_ids "group_1" Scenario.trip_b_removed
  = referenced_users "group_1" Scenario.trip_b_removed
  ∧ NoDup (user_id <$> calculate_group_balances "group_1" Scenario.trip_b_removed)
  ∧ ∀ u, u ∈ referenced_users "group_1" Scenario.trip_b_removed
         → ∃ b, b ∈ calculate_group_balances "group_1" Scenario.trip_b_removed
                ∧ user_id b = u
                ∧ balance_inr b = net_position "group_1" Scenario.trip_b_removed u.
Proof. apply union_rule. by vm_compute. Defined.

Lemma deleted_expense_frame_witness :
  calculate_group_balances "group_1"
    (add_expense Scenario.taxi Scenario.taxi_splits Scenario.trip)
  = calculate_group_balances "group_1" Scenario.trip.
Proof.
  apply deleted_expense_frame.
  - by vm_compute.
  - apply (bool_decide_unpack _). by vm_compute.
  - intros s Hs. unfold Scenario.taxi_splits in Hs.
    apply elem_of_cons in Hs as [->|Hs]; [reflexivity|].
    apply list_elem_of_singleton in Hs as ->. reflexivity.
Defined.

(** C2 fails as stated: the balances of [small_change] add up to zero, the
    two transfers of 0.03 exhaust the debtors' list, and the third creditor
    is left 0.02 short. *)
Lemma dust_accumulates :
  sumZ (balance_inr <$> Scenario.small_change) = 0
  ∧ simplify_debts Scenario.small_change = Returned Scenario.small_change_transfers
  ∧ net_after Scenario.small_change Scenario.small_change_transfers "c" = 2
  ∧ ¬ (∀ u, Z.abs (net_after Scenario.small_change
                             Scenario.small_change_transfers u) ≤ 1).
Proof.
  split; [reflexivity|]. split; [reflexivity|]. split; [reflexivity|].
  intros Hall. specialize (Hall "c"). vm_compute in Hall. by apply Hall.
Qed.

Lemma simplify_settles_up_to_dust_witness :
  ∃ transfers,
    simplify_debts Scenario.small_change = Returned transfers
    ∧ ∀ u, Z.abs (net_after Scenario.small_change transfers u)
           ≤ Z.of_nat (length (nonzero_balances Scenario.small_change)).
Proof. apply simplify_settles_up_to_dust. reflexivity. Defined.



(** A is an active member of the trip and has left the second group: of
    the 200.00 A is owed for the dinner and the 30.00 A is still owed for
    the lunch, only the first counts, and a further payment for the lunch
    changes nothing. *)
Lemma personal_aggregate_active_groups_witness :
  active_in Cases.two_groups "user_a" "group_1"
  ∧ ¬ active_in Cases.two_groups "user_a" "group_2"
  ∧ net_position "group_1" Cases.two_groups "user_a" = 20000
  ∧ net_position "group_2" Cases.two_groups "user_a" = 3000
  ∧ calculate_user_net_balance "user_a" Cases.two_groups = 20000
  ∧ calculate_user_net_balance "user_a"
      (add_settlement (Cases.c_pays_a 3000) Cases.two_groups)
    = calculate_user_net_balance "user_a" Cases.two_groups.
Proof.
  destruct (personal_aggregate_active_groups "user_a" Cases.two_groups)
    as (_ & _ & Hsum & _ & Hframe).
  split; [apply (bool_decide_unpack _); by vm_compute|].
  split; [apply (bool_decide_unpack _); by vm_compute|].
  split; [reflexivity|]. split; [reflexivity|].
  split; [rewrite Hsum; reflexivity|].
  apply Hframe. apply (bool_decide_unpack _). by vm_compute.
Defined.

(** ** The read-through cache *)

(** On a miss both service functions return what their computation returns;
    on a hit they return the stored value and leave Redis as it is. *)
Lemma calculate_group_balances_cached_miss gid db r :
  group_keys r !! gid = None
  → (calculate_group_balances_cached gid db r).1 = calculate_group_balances gid db.
Proof.
  intros Hmiss. unfold calculate_group_balances_cached. rewrite Hmiss.
  by destruct (active_members gid db).
Qed.

Lemma calculate_group_balances_cached_hit gid db r cached :
  group_keys r !! gid = Some cached
  → calculate_group_balances_cached gid db r = (cached, r).
Proof. intros Hhit. unfold calculate_group_balances_cached. by rewrite Hhit. Qed.

Lemma calculate_user_net_balance_cached_miss uid db r :
  user_keys r !! uid = None
  → (calculate_user_net_balance_cached uid db r).1 = calculate_user_net_balance uid db.
Proof.
  intros Hmiss. unfold calculate_user_net_balance_cached. rewrite Hmiss.
  by destruct (active_group_ids uid db).
Qed.

Lemma calculate_user_net_balance_cached_hit uid db r cached :
  user_keys r !! uid = Some cached
  → calculate_user_net_balance_cached uid db r = (cached, r).
Proof. intros Hhit. unfold calculate_user_net_balance_cached. by rewrite Hhit. Qed.

(** ** The three-member scenario *)

Lemma simplify_debts_each_order (balances : list BalanceResponse)
    (P : outcome (list DebtSimplification) → Prop) :
  Forall (λ bs, P (simplify_debts bs)) (permutations balances)
  → ∀ bs, bs ≡ₚ balances → P (simplify_debts bs).
Proof.
  intros Hall bs Hbs. rewrite Forall_forall in Hall. apply Hall.
  by apply permutations_Permutation.
Qed.

(** C9 (three-member scenario).  With A having paid 300.00 split equally
    between A, B and C, the aggregation reports A = +200.00, B = -100.00 and
    C = -100.00, and in whatever order these balances are listed the
    simplifier returns the two transfers B -> A 100.00 and C -> A 100.00, in
    some order.  Once a completed settlement of 100.00 from B to A is recorded
    the aggregation reports A = +100.00, B = 0.00 and C = -100.00, and in
    whatever order they are listed the simplifier returns the single transfer
    C -> A 100.00. *)
Theorem three_member_scenario :
  calculate_group_balances "group_1" Scenario.trip
    ≡ₚ [Scenario.balance_of Scenario.user_a 20000;
        Scenario.balance_of Scenario.user_b (-10000);
        Scenario.balance_of Scenario.user_c (-10000)]
  ∧ (∀ balances,
       balances ≡ₚ calculate_group_balances "group_1" Scenario.trip
       → ∃ transfers,
           simplify_debts balances = Returned transfers
           ∧ transfers ≡ₚ [Scenario.transfer Scenario.user_b Scenario.user_a 10000;
                           Scenario.transfer Scenario.user_c Scenario.user_a 10000])
  ∧ calculate_group_balances "group_1" Scenario.trip_settled
      ≡ₚ [Scenario.balance_of Scenario.user_a 10000;
          Scenario.balance_of Scenario.user_b 0;
          Scenario.balance_of Scenario.user_c (-10000)]
  ∧ (∀ balances,
       balances ≡ₚ calculate_group_balances "group_1" Scenario.trip_settled
       → simplify_debts balances
         = Returned [Scenario.transfer Scenario.user_c Scenario.user_a 10000]).
Proof.
  split; [|split; [|split]].
  - apply permutations_Permutation. apply (bool_decide_unpack _). by vm_compute.
  - apply (simplify_debts_each_order _
      (λ r, ∃ transfers, r = Returned transfers
            ∧ transfers ≡ₚ [Scenario.transfer Scenario.user_b Scenario.user_a 10000;
                            Scenario.transfer Scenario.user_c Scenario.user_a 10000])).
    vm_compute.
    repeat (apply Forall_cons; split;
            [eexists; split; [reflexivity|first [reflexivity | apply perm_swap]]|]).
    apply Forall_nil_2.
  - apply permutations_Permutation. apply (bool_decide_unpack _). by vm_compute.
  - apply (simplify_debts_each_order _
      (λ r, r = Returned [Scenario.transfer Scenario.user_c Scenario.user_a 10000])).
    vm_compute.
    repeat (apply Forall_cons; split; [reflexivity|]).
    apply Forall_nil_2.
Qed.

(** * Further properties *)

(** ** The aggregation beyond its contract *)

(** The amounts of the output add up to what the splits of the group's
    non-deleted expenses leave uncovered: nothing when every expense is
    split in full, and never anything a settlement contributes. *)
Theorem balances_add_up_to_uncovered (group_id : string) (db : Session) :
  active_members group_id db ≠ []
  → sumZ (balance_inr <$> calculate_group_balances group_id db)
    = sumZ (uncovered db <$> filter (live_in group_id) (expenses db)).
Proof.
  intros Hm. rewrite calculate_group_balances_unfold.
  destruct (active_members group_id db); [done|].
  rewrite balance_responses_amounts.
  change (sum_values (group_balances group_id db)
          = sumZ (uncovered db <$> filter (live_in group_id) (expenses db))).
  unfold group_balances.
  rewrite group_balance_map_total, (join_splits_sum (live_in group_id)).
  unfold uncovered.
  induction (filter (live_in group_id) (expenses db)) as [|e es IH]; [done|].
  rewrite !fmap_cons, !sumZ_cons. lia.
Qed.

Lemma net_position_unreferenced gid db u :
  u ∉ payers gid db ∪ split_users gid db ∪ settlement_parties gid db
  → net_position gid db u = 0.
Proof.
  intros Hu. unfold net_position.
  rewrite <- payer_totals_default, <- split_totals_default,
    <- settlement_outgoing_default, <- settlement_incoming_default.
  rewrite <- settlement_dom, <- payer_totals_dom, <- split_totals_dom in Hu.
  rewrite !not_elem_of_union, !not_elem_of_dom in Hu.
  destruct Hu as [[-> ->] [-> ->]]. done.
Qed.

(** An active member whom no selected row mentions still has a record, with
    balance zero. *)
Theorem idle_member_has_zero_balance (group_id : string) (db : Session) (u : string) :
  u ∈ member_ids group_id db
  → u ∉ payers group_id db ∪ split_users group_id db ∪ settlement_parties group_id db
  → ∃ b, b ∈ calculate_group_balances group_id db
         ∧ user_id b = u ∧ balance_inr b = 0.
Proof.
  intros Hm Hu.
  assert (active_members group_id db ≠ []) as Hne.
  { unfold member_ids in Hm. intros Hnil. rewrite Hnil in Hm.
    by apply elem_of_empty in Hm. }
  assert (u ∈ output_ids group_id db) as Hout.
  { rewrite output_ids_eq by done. unfold referenced_users. set_solver. }
  unfold output_ids in Hout.
  apply elem_of_list_to_set, list_elem_of_fmap in Hout as (b & -> & Hb).
  exists b. split; [done|]. split; [done|].
  rewrite (calculate_group_balances_amount _ _ _ Hb).
  by apply net_position_unreferenced.
Qed.

Lemma calculate_add_expense_other_group gid e splits db :
  Expense.group_id e ≠ gid
  → Expense.id e ∉ Expense.id <$> expenses db
  → (∀ s, s ∈ splits → ExpenseSplit.expense_id s = Expense.id e)
  → calculate_group_balances gid (add_expense e splits db)
    = calculate_group_balances gid db.
Proof.
  intros Hg Hfresh Hsplits.
  apply calculate_group_balances_ext; try done; simpl.
  - rewrite filter_app, filter_cons_False, filter_nil, app_nil_r; [done|].
    by intros [? _].
  - apply (join_splits_add_expense (λ row, live_in gid row.2)); try done.
    by intros s [? _].
Qed.

Lemma calculate_add_settlement_other_group gid s db :
  Settlement.group_id s ≠ gid
  → calculate_group_balances gid (add_settlement s db)
    = calculate_group_balances gid db.
Proof.
  intros Hg. apply calculate_group_balances_ext; try done. simpl.
  rewrite filter_app, filter_cons_False, filter_nil, app_nil_r; [done|].
  by intros [? _].
Qed.

(** Rows of other groups do not reach a group's output: an expense with its
    splits, a settlement, or a membership recorded in another group leaves
    it as it is. *)
Theorem other_groups_leave_output (group_id : string) (db : Session) :
  (∀ e splits,
     Expense.group_id e ≠ group_id
     → Expense.id e ∉ Expense.id <$> expenses db
     → (∀ s, s ∈ splits → ExpenseSplit.expense_id s = Expense.id e)
     → calculate_group_balances group_id (add_expense e splits db)
       = calculate_group_balances group_id db)
  ∧ (∀ s, Settlement.group_id s ≠ group_id
          → calculate_group_balances group_id (add_settlement s db)
            = calculate_group_balances group_id db)
  ∧ (∀ m, GroupMember.group_id m ≠ group_id
          → calculate_group_balances group_id (add_member m db)
            = calculate_group_balances group_id db).
Proof.
  split; [|split].
  - intros e splits. apply calculate_add_expense_other_group.
  - intros s. apply calculate_add_settlement_other_group.
  - intros m Hg.
    unfold calculate_group_balances, all_user_ids, group_balance_map, backfill_names,
      payer_totals, split_totals, settlement_outgoing, settlement_incoming,
      active_members, join_splits. simpl.
    rewrite filter_app, filter_cons_False, filter_nil, app_nil_r; [done|].
    by intros [? _].
Qed.

(** ** The personal aggregate and the group balances *)

Lemma active_group_has_members u db g :
  g ∈ active_group_ids u db → active_members g db ≠ [].
Proof.
  unfold active_group_ids, active_members.
  intros (m & -> & [[Hu Hs] Hm]%list_elem_of_filter)%list_elem_of_fmap Hnil.
  assert (m ∈ filter (λ m', GroupMember.group_id m' = GroupMember.group_id m
                            ∧ GroupMember.status m' = "active") (group_members db))
    as Hin by (apply list_elem_of_filter; by split).
  rewrite Hnil in Hin. by apply elem_of_nil in Hin.
Qed.

(** A user's net balance is the sum of the balances the group aggregation
    reports for them in the groups in which they are an active member. *)
Theorem net_balance_sums_group_balances (user_id : string) (db : Session) :
  calculate_user_net_balance user_id db
  = sumZ ((λ g, balance_in (calculate_group_balances g db) user_id)
            <$> remove_dups (active_group_ids user_id db)).
Proof.
  rewrite calculate_user_net_balance_by_group. apply sumZ_fmap_ext.
  intros g Hg. rewrite elem_of_remove_dups in Hg.
  symmetry. apply balance_in_calculate. by eapply active_group_has_members.
Qed.

(** ** Names *)

Lemma foldl_insert_lookup {A} (key : A → string) (val : A → string)
    (l : list A) (acc : gmap string string) (u : string) :
  foldl (λ acc x, <[key x := val x]> acc) acc l !! u
  = match last (filter (λ x, key x = u) l) with
    | Some x => Some (val x)
    | None => acc !! u
    end.
Proof.
  revert acc. induction l as [|x l IH]; intros acc; [done|].
  simpl. rewrite IH, filter_cons.
  destruct (decide (key x = u)) as [Hx|Hx].
  - rewrite last_cons. destruct (last (filter (λ x, key x = u) l)); [done|].
    by rewrite <- Hx, lookup_insert_eq.
  - destruct (last (filter (λ x, key x = u) l)); [done|].
    by rewrite lookup_insert_ne.
Qed.

Lemma member_names_lookup members u :
  member_names members !! u
  = member_name <$> last (filter (λ m, GroupMember.user_id m = u) members).
Proof.
  unfold member_names.
  rewrite (foldl_insert_lookup GroupMember.user_id member_name).
  by destruct (last _).
Qed.

Lemma setdefault_keeps (l : list string) (acc : gmap string string) u n :
  acc !! u = Some n
  → foldl (λ acc uid, match acc !! uid with
                      | Some _ => acc
                      | None => <[uid := uid]> acc
                      end) acc l !! u = Some n.
Proof.
  revert acc. induction l as [|k l IH]; intros acc Hu; [done|].
  simpl. apply IH. destruct (acc !! k) eqn:Hk; [done|].
  rewrite lookup_insert_ne; [done|]. intros ->. congruence.
Qed.

Lemma setdefault_fills (l : list string) (acc : gmap string string) u :
  u ∈ l → acc !! u = None
  → foldl (λ acc uid, match acc !! uid with
                      | Some _ => acc
                      | None => <[uid := uid]> acc
                      end) acc l !! u = Some u.
Proof.
  revert acc. induction l as [|k l IH]; intros acc Hin Hu.
  - by apply elem_of_nil in Hin.
  - simpl. destruct (decide (k = u)) as [->|Hne].
    + rewrite Hu. apply setdefault_keeps. apply lookup_insert_eq.
    + apply elem_of_cons in Hin as [?|Hin]; [congruence|].
      apply IH; [done|]. destruct (acc !! k); [done|]. by rewrite lookup_insert_ne.
Qed.

(** What the backfill leaves under a user id. *)
Lemma backfill_names_lookup db (ids : gset string) names u :
  u ∈ ids
  → backfill_names db ids names !! u
    = match names !! u with
      | Some n => Some n
      | None =>
          match last (filter (λ row, User.id row = u) (users db)) with
          | Some row => Some (user_row_name row)
          | None => Some u
          end
      end.
Proof.
  intros Hu. unfold backfill_names.
  set (missing := filter (λ uid, names !! uid = None) (elements ids)).
  pose proof (foldl_insert_lookup User.id user_row_name
    (filter (λ row, User.id row ∈ missing) (users db)) names u) as Hfold.
  unfold user_row_name in Hfold at 1.
  assert (filter (λ row, User.id row = u)
            (filter (λ row, User.id row ∈ missing) (users db))
          = if decide (names !! u = None)
            then filter (λ row, User.id row = u) (users db) else []) as Hsel.
  { clear Hfold. induction (users db) as [|row rows IH].
    - by case_decide.
    - rewrite (filter_cons (λ row, User.id row ∈ missing)).
      rewrite (filter_cons (λ row, User.id row = u) row rows).
      destruct (decide (User.id row = u)) as [Hrow|Hrow].
      + destruct (decide (names !! u = None)) as [Hnone|Hsome].
        * rewrite decide_True.
          2:{ unfold missing. apply list_elem_of_filter. rewrite Hrow.
              split; [done|]. by apply elem_of_elements. }
          rewrite filter_cons_True by done. by rewrite IH.
        * rewrite decide_False; [done|]. unfold missing.
          rewrite list_elem_of_filter, Hrow. tauto.
      + destruct (decide (User.id row ∈ missing));
          [rewrite filter_cons_False by done|]; apply IH. }
  rewrite Hsel in Hfold.
  destruct (names !! u) as [n|] eqn:Hn.
  - rewrite decide_False in Hfold by done. simpl in Hfold.
    by apply setdefault_keeps.
  - rewrite decide_True in Hfold by done.
    destruct (last (filter (λ row, User.id row = u) (users db))) as [row|].
    + by apply setdefault_keeps.
    + apply setdefault_fills; [by apply elem_of_elements | done].
Qed.

Lemma elem_of_balance_responses_name names balances b :
  b ∈ balance_responses names balances
  → user_name b = default (user_id b) (names !! user_id b)
    ∧ is_Some (balances !! user_id b).
Proof.
  unfold balance_responses. intros ([k v] & -> & Hitem)%list_elem_of_fmap. simpl.
  split; [done|]. apply elem_of_map_to_list in Hitem. by rewrite Hitem.
Qed.

(** The name on a record of the output. *)
Lemma calculate_group_balances_name gid db b :
  b ∈ calculate_group_balances gid db
  → user_name b
    = match last (filter (λ m, GroupMember.user_id m = user_id b)
                         (active_members gid db)) with
      | Some m => member_name m
      | None =>
          match last (filter (λ row, User.id row = user_id b) (users db)) with
          | Some row => user_row_name row
          | None => user_id b
          end
      end.
Proof.
  rewrite calculate_group_balances_unfold.
  destruct (active_members gid db) as [|m0 ms] eqn:Hm; [by intros ?%elem_of_nil|].
  rewrite <- Hm. clear Hm m0 ms.
  intros [-> Hin]%elem_of_balance_responses_name.
  apply elem_of_dom in Hin. unfold group_balances in Hin.
  rewrite group_balance_map_dom in Hin.
  assert (user_id b ∈ all_user_ids gid db (member_names (active_members gid db))) as Hall.
  { rewrite all_user_ids_eq in Hin |- *. set_solver. }
  rewrite (backfill_names_lookup _ _ _ _ Hall), member_names_lookup.
  destruct (last (filter _ (active_members gid db))); simpl; [done|].
  by destruct (last (filter _ (users db))).
Qed.

(** Names are threaded through by lookup: the record of an active member
    carries the name of the member's user (display name, else email, else
    id); the record of a user who is not an active member carries the name
    found in the users table, and the bare id when the table has no row for
    them. *)
Theorem records_carry_names (group_id : string) (db : Session) (b : BalanceResponse) :
  b ∈ calculate_group_balances group_id db
  → (∀ m, filter (λ m', GroupMember.user_id m' = user_id b)
                 (active_members group_id db) = [m]
          → user_name b = member_name m)
    ∧ (user_id b ∉ member_ids group_id db
       → (∀ row, filter (λ row', User.id row' = user_id b) (users db) = [row]
                 → user_name b = user_row_name row)
         ∧ (user_id b ∉ User.id <$> users db → user_name b = user_id b)).
Proof.
  intros Hb. rewrite (calculate_group_balances_name _ _ _ Hb).
  split.
  - intros m ->. done.
  - intros Hnot.
    assert (filter (λ m, GroupMember.user_id m = user_id b)
                   (active_members group_id db) = []) as ->.
    { apply (filter_none _ (λ m, GroupMember.user_id m ∈ member_ids group_id db)).
      - apply Forall_forall. intros m Hm. unfold member_ids.
        apply elem_of_list_to_set, list_elem_of_fmap. by exists m.
      - intros m Hm Heq. apply Hnot. by rewrite <- Heq. }
    simpl. split.
    + intros row ->. done.
    + intros Hrow.
      rewrite (filter_none _ (λ row, User.id row ∈ User.id <$> users db)); [done| |].
      * apply Forall_forall. intros row Hin. apply list_elem_of_fmap. by exists row.
      * intros row Hin Heq. apply Hrow. by rewrite <- Heq.
Qed.

(** ** Reading through the cache *)

(** While every stored entry is fresh, a read through the cache returns what
    the aggregation computes, and leaves every stored entry fresh. *)
Theorem group_cache_read_through (group_id : string) (db : Session) (r : Redis) :
  fresh_groups db r
  → (calculate_group_balances_cached group_id db r).1
    = calculate_group_balances group_id db
    ∧ fresh_groups db (calculate_group_balances_cached group_id db r).2.
Proof.
  intros Hfresh. unfold calculate_group_balances_cached.
  destruct (group_keys r !! group_id) as [cached|] eqn:Hkey; simpl.
  - split; [by apply Hfresh | done].
  - destruct (active_members group_id db) eqn:Hm; simpl; [done|].
    split; [done|]. intros g cached. simpl.
    destruct (decide (group_id = g)) as [<-|Hne].
    + rewrite lookup_insert_eq. by intros [= <-].
    + rewrite lookup_insert_ne by done. apply Hfresh.
Qed.

Theorem user_cache_read_through (user_id : string) (db : Session) (r : Redis) :
  fresh_users db r
  → (calculate_user_net_balance_cached user_id db r).1
    = calculate_user_net_balance user_id db
    ∧ fresh_users db (calculate_user_net_balance_cached user_id db r).2.
Proof.
  intros Hfresh. unfold calculate_user_net_balance_cached.
  destruct (user_keys r !! user_id) as [cached|] eqn:Hkey; simpl.
  - split; [by apply Hfresh | done].
  - destruct (active_group_ids user_id db) eqn:Hm; simpl; [done|].
    split; [done|]. intros u cached. simpl.
    destruct (decide (user_id = u)) as [<-|Hne].
    + rewrite lookup_insert_eq. by intros [= <-].
    + rewrite lookup_insert_ne by done. apply Hfresh.
Qed.

(** A result computed on a miss, in a group with an active member, is
    stored under the group's key.  A later read returns it, whatever the
    tables have become, as long as the key is there; once its lifetime has
    run out, or [invalidate_group_balance_cache] has deleted it, the read
    computes on the tables of its day.  The empty result of a group without
    active members is never stored. *)
Theorem cached_result_is_served_while_stored (group_id : string)
    (db : Session) (r : Redis) :
  group_keys r !! group_id = None
  → (active_members group_id db ≠ []
     → ∀ db' gone_groups gone_users,
         (calculate_group_balances_cached group_id db'
            (expire gone_groups gone_users
               (calculate_group_balances_cached group_id db r).2)).1
         = (if decide (group_id ∈ gone_groups)
            then calculate_group_balances group_id db'
            else calculate_group_balances group_id db)
         ∧ (calculate_group_balances_cached group_id db'
              (invalidate_group_balance_cache group_id
                 (calculate_group_balances_cached group_id db r).2)).1
           = calculate_group_balances group_id db')
    ∧ (active_members group_id db = []
       → calculate_group_balances_cached group_id db r = ([], r)).
Proof.
  intros Hmiss. unfold calculate_group_balances_cached at 2 4 5. rewrite Hmiss.
  split.
  - intros Hm db' gone_groups gone_users.
    destruct (active_members group_id db) eqn:Hmem; [done|].
    simpl. split.
    + destruct (decide (group_id ∈ gone_groups)) as [Hgone|Hkept].
      * apply calculate_group_balances_cached_miss. simpl.
        apply map_lookup_filter_None. right. intros x _ Hx. by apply Hx.
      * erewrite calculate_group_balances_cached_hit; [done|]. simpl.
        apply map_lookup_filter_Some. split; [apply lookup_insert_eq | done].
    + apply calculate_group_balances_cached_miss. simpl. apply lookup_delete_eq.
  - intros Hm. rewrite Hm. unfold calculate_group_balances. by rewrite Hm.
Qed.

(** ** Soft deletion and invalidation *)

(** The joined rows of live expenses only depend on the live expenses. *)
Lemma join_one_split_rows (P : Expense.t → Prop) `{∀ e, Decision (P e)}
    (s : ExpenseSplit.t) (es : list Expense.t) :
  filter (λ row : ExpenseSplit.t * Expense.t, P row.2)
    (es ≫= λ e, if decide (Expense.id e = ExpenseSplit.expense_id s)
                then [(s, e)] else [])
  = (λ e, (s, e))
      <$> filter (λ e, Expense.id e = ExpenseSplit.expense_id s) (filter P es).
Proof.
  induction es as [|e es IH]; [done|].
  rewrite bind_cons, filter_app, IH, (filter_cons P).
  destruct (decide (P e)) as [HP|HP];
    [rewrite (filter_cons (λ e, Expense.id e = ExpenseSplit.expense_id s))|];
    destruct (decide (Expense.id e = ExpenseSplit.expense_id s)) as [Hid|Hid].
  - by rewrite filter_cons_True, filter_nil, fmap_cons by done.
  - by rewrite filter_nil.
  - by rewrite filter_cons_False, filter_nil by done.
  - by rewrite filter_nil.
Qed.

Lemma join_splits_live (P : Expense.t → Prop) `{∀ e, Decision (P e)} db db' :
  expense_splits db = expense_splits db'
  → filter P (expenses db) = filter P (expenses db')
  → filter (λ row, P row.2) (join_splits db) = filter (λ row, P row.2) (join_splits db').
Proof.
  intros Hs He. unfold join_splits. rewrite !filter_bind, Hs.
  apply list_bind_ext; [|done]. intros s.
  by rewrite !(join_one_split_rows P), He.
Qed.

Lemma calculate_group_balances_live_ext gid db db' :
  users db = users db'
  → group_members db = group_members db'
  → expense_splits db = expense_splits db'
  → filter (live_in gid) (expenses db) = filter (live_in gid) (expenses db')
  → filter (completed gid) (settlements db) = filter (completed gid) (settlements db')
  → calculate_group_balances gid db = calculate_group_balances gid db'.
Proof.
  intros Hu Hm Hs He Hst. apply calculate_group_balances_ext; try done.
  by apply (join_splits_live (live_in gid)).
Qed.

Lemma live_after_mark_deleted gid eid now (es : list Expense.t) :
  filter (live_in gid)
    ((λ e, if decide (Expense.id e = eid)
           then Expense.mk (Expense.id e) (Expense.group_id e) (Expense.payer_id e)
                           (Expense.amount_inr e) (Some now)
           else e) <$> es)
  = filter (live_in gid) (filter (λ e, Expense.id e ≠ eid) es).
Proof.
  induction es as [|e es IH]; [done|].
  rewrite fmap_cons, (filter_cons (λ e, Expense.id e ≠ eid)).
  destruct (decide (Expense.id e = eid)) as [Hid|Hid].
  - rewrite decide_False by tauto.
    rewrite filter_cons_False; [done|]. by intros [_ ?].
  - rewrite decide_True by done. rewrite !filter_cons, IH. by case_decide.
Qed.

(** For the aggregation a soft-deleted expense is an absent one:
    [delete_expense] changes the output exactly as dropping the row would. *)
Theorem soft_delete_is_removal (group_id expense_id : string) (now : Z) (db : Session) :
  calculate_group_balances group_id (mark_deleted expense_id now db)
  = calculate_group_balances group_id (without_expense expense_id db).
Proof.
  apply calculate_group_balances_live_ext; try done. simpl.
  apply live_after_mark_deleted.
Qed.

Lemma calculate_mark_deleted_other_group gid eid now db :
  (∀ e, e ∈ expenses db → Expense.id e = eid → Expense.group_id e ≠ gid)
  → calculate_group_balances gid (mark_deleted eid now db)
    = calculate_group_balances gid db.
Proof.
  intros Hother. apply calculate_group_balances_live_ext; try done. simpl.
  rewrite live_after_mark_deleted.
  induction (expenses db) as [|e es IH]; [done|].
  rewrite (filter_cons (λ e, Expense.id e ≠ eid)).
  destruct (decide (Expense.id e ≠ eid)) as [Hid|Hid].
  - rewrite !filter_cons, IH; [done|].
    intros e' He'. apply Hother, elem_of_cons. by right.
  - rewrite IH by (intros e' He'; apply Hother, elem_of_cons; by right).
    rewrite filter_cons_False; [done|]. intros [Hg _].
    apply (Hother e); [apply elem_of_cons; by left | | done].
    by destruct (decide (Expense.id e = eid)).
Qed.

Lemma NoDup_fmap_eq {A B} (f : A → B) (l : list A) x y :
  NoDup (f <$> l) → x ∈ l → y ∈ l → f x = f y → x = y.
Proof.
  induction l as [|z l IH]; [by intros _ ?%elem_of_nil|].
  rewrite fmap_cons, NoDup_cons.
  intros [Hz Hnd] [->|Hx]%elem_of_cons [->|Hy]%elem_of_cons Hf; [done| | |by apply IH].
  - destruct Hz. rewrite Hf. by apply list_elem_of_fmap_2.
  - destruct Hz. rewrite <- Hf. by apply list_elem_of_fmap_2.
Qed.

(** Deleting the key of the group a write touches keeps every stored group
    entry fresh: for a new expense with its splits and for a new settlement,
    and for the soft deletion of an expense when expense ids are unique. *)
Theorem invalidation_keeps_groups_fresh (db : Session) (r : Redis) :
  fresh_groups db r
  → (∀ e splits,
       Expense.id e ∉ Expense.id <$> expenses db
       → (∀ s, s ∈ splits → ExpenseSplit.expense_id s = Expense.id e)
       → fresh_groups (add_expense e splits db)
           (invalidate_group_balance_cache (Expense.group_id e) r))
    ∧ (∀ s, fresh_groups (add_settlement s db)
              (invalidate_group_balance_cache (Settlement.group_id s) r))
    ∧ (∀ e now,
         e ∈ expenses db
         → NoDup (Expense.id <$> expenses db)
         → fresh_groups (mark_deleted (Expense.id e) now db)
             (invalidate_group_balance_cache (Expense.group_id e) r)).
Proof.
  intros Hfresh.
  assert (∀ g0 g cached,
    group_keys (invalidate_group_balance_cache g0 r) !! g = Some cached
    → g0 ≠ g ∧ cached = calculate_group_balances g db) as Hkept.
  { intros g0 g cached. simpl. destruct (decide (g0 = g)) as [->|Hne].
    - by rewrite lookup_delete_eq.
    - rewrite lookup_delete_ne by done. intros Hg. split; [done|]. by apply Hfresh. }
  split; [|split].
  - intros e splits Hid Hsplits g cached [Hne ->]%Hkept.
    symmetry. by apply calculate_add_expense_other_group.
  - intros s g cached [Hne ->]%Hkept.
    symmetry. by apply calculate_add_settlement_other_group.
  - intros e now He Hnd g cached [Hne ->]%Hkept.
    symmetry. apply calculate_mark_deleted_other_group.
    intros e' He' Hid. by rewrite (NoDup_fmap_eq Expense.id _ e' e Hnd He' He Hid).
Qed.

(** [invalidate_user_balance_cache] removes the user's key and the keys of
    the groups in which the user is an active member, and nothing else; the
    next reads of the user's net balance and of those groups' balances
    compute on the tables. *)
Theorem invalidate_user_balance_cache_effect (user_id : string) (db : Session)
    (r : Redis) :
  user_keys (invalidate_user_balance_cache user_id db r) = delete user_id (user_keys r)
  ∧ (∀ g, group_keys (invalidate_user_balance_cache user_id db r) !! g
          = if decide (g ∈ active_group_ids user_id db) then None
            else group_keys r !! g)
  ∧ (calculate_user_net_balance_cached user_id db
       (invalidate_user_balance_cache user_id db r)).1
    = calculate_user_net_balance user_id db
  ∧ (∀ g, g ∈ active_group_ids user_id db
          → (calculate_group_balances_cached g db
               (invalidate_user_balance_cache user_id db r)).1
            = calculate_group_balances g db).
Proof.
  assert (∀ (ms : list GroupMember.t) (r0 : Redis),
    user_keys (foldl (λ r membership,
                 invalidate_group_balance_cache (GroupMember.group_id membership) r)
               r0 ms) = user_keys r0
    ∧ ∀ g, group_keys (foldl (λ r membership,
                 invalidate_group_balance_cache (GroupMember.group_id membership) r)
               r0 ms) !! g
           = if decide (g ∈ GroupMember.group_id <$> ms) then None
             else group_keys r0 !! g) as Hfold.
  { induction ms as [|m ms IH]; intros r0.
    - split; [done|]. intros g. by rewrite decide_False by apply not_elem_of_nil.
    - rewrite fmap_cons. cbn [foldl].
      destruct (IH (invalidate_group_balance_cache (GroupMember.group_id m) r0))
        as [IHu IHg].
      split; [by rewrite IHu|]. intros g. rewrite IHg. simpl.
      destruct (decide (g ∈ GroupMember.group_id <$> ms)) as [Hin|Hin].
      + by rewrite decide_True by (apply elem_of_cons; by right).
      + destruct (decide (GroupMember.group_id m = g)) as [->|Hne].
        * rewrite lookup_delete_eq. by rewrite decide_True by (apply elem_of_cons; by left).
        * rewrite lookup_delete_ne by done.
          rewrite decide_False; [done|]. rewrite not_elem_of_cons. split; congruence. }
  unfold invalidate_user_balance_cache.
  destruct (Hfold
    (filter (λ m, GroupMember.user_id m = user_id ∧ GroupMember.status m = "active")
            (group_members db))
    (mkRedis (group_keys r) (delete user_id (user_keys r)))) as [Hu Hg].
  fold (active_group_ids user_id db) in Hg.
  split; [done|]. split; [done|]. split.
  - apply calculate_user_net_balance_cached_miss. rewrite Hu. simpl.
    apply lookup_delete_eq.
  - intros g Hin. apply calculate_group_balances_cached_miss.
    rewrite Hg. by rewrite decide_True.
Qed.

(** ** The expense summary *)

Lemma filter_ext_in {A} (P Q : A → Prop) `{∀ x, Decision (P x), ∀ x, Decision (Q x)}
    (l : list A) :
  (∀ x, x ∈ l → P x ↔ Q x) → filter P l = filter Q l.
Proof.
  induction l as [|x l IH]; [done|]. intros Hext.
  rewrite !filter_cons, IH by (intros y Hy; apply Hext, elem_of_cons; by right).
  pose proof (Hext x (proj2 (elem_of_cons _ _ _) (or_introl eq_refl))).
  repeat case_decide; tauto || done.
Qed.

Lemma size_list_to_set_le (l : list string) :
  (size (list_to_set l : gset string) ≤ length l)%nat.
Proof.
  induction l as [|x l IH]; [by rewrite list_to_set_nil, size_empty|].
  rewrite list_to_set_cons, size_union_alt, size_singleton. simpl.
  assert (list_to_set l ∖ {[x]} ⊆ (list_to_set l : gset string)) as Hsub by set_solver.
  apply subseteq_size in Hsub. lia.
Qed.

(** The summary counts what the aggregation credits: its [unique_payers] is
    the number of users with a payer total, at most [expense_count] and zero
    only with it, and its [total_amount] is the sum of what these users
    paid. *)
Theorem summary_agrees_with_aggregation (group_id : string) (db : Session) :
  unique_payers (get_group_expense_summary group_id db)
  = size (dom (payer_totals group_id db))
  ∧ total_amount (get_group_expense_summary group_id db)
    = sumZ (paid group_id db <$> elements (dom (payer_totals group_id db)))
  ∧ (unique_payers (get_group_expense_summary group_id db)
     ≤ expense_count (get_group_expense_summary group_id db))%nat
  ∧ (unique_payers (get_group_expense_summary group_id db) = 0%nat
     ↔ expense_count (get_group_expense_summary group_id db) = 0%nat).
Proof.
  rewrite payer_totals_dom. unfold get_group_expense_summary, payers. simpl.
  split; [done|]. split; [|split].
  - unfold paid.
    rewrite <- (sum_by_group Expense.payer_id Expense.amount_inr (live_in group_id))
      by apply NoDup_elements.
    f_equal. f_equal. apply filter_ext_in. intros e He.
    split; [|by intros [? _]]. intros Hlive. split; [done|].
    apply elem_of_elements, elem_of_list_to_set, list_elem_of_fmap_2.
    by apply list_elem_of_filter.
  - rewrite <- (length_fmap Expense.payer_id). apply size_list_to_set_le.
  - rewrite size_empty_iff.
    destruct (filter (live_in group_id) (expenses db)) as [|e es]; [done|].
    rewrite fmap_cons, list_to_set_cons. simpl. split; [set_solver|done].
Qed.

(** ** The pending-dues check *)

Lemma filter_unique {A} (f : A → string) (l : list A) (x : A) :
  NoDup (f <$> l) → x ∈ l → filter (λ y, f y = f x) l = [x].
Proof.
  induction l as [|z l IH]; [by intros _ ?%elem_of_nil|].
  rewrite fmap_cons, NoDup_cons. intros [Hz Hnd] [->|Hx]%elem_of_cons.
  - rewrite filter_cons_True by done. f_equal.
    apply (filter_none _ (λ y, f y ∈ f <$> l)).
    + apply Forall_forall. intros y Hy. by apply list_elem_of_fmap_2.
    + intros y Hy Heq. apply Hz. by rewrite <- Heq.
  - rewrite filter_cons_False; [by apply IH|].
    intros Heq. apply Hz. rewrite Heq. by apply list_elem_of_fmap_2.
Qed.

(** On the output of the aggregation, the check made before leaving and
    removal finds dues pending exactly when the group has an active member
    and the user's net position is not zero: it follows users who are no
    longer members, and it finds none in a group without active members,
    whatever is open there. *)
Theorem pending_dues_reads_net_position (group_id : string) (db : Session)
    (u : string) :
  pending_dues (calculate_group_balances group_id db) u = true
  ↔ active_members group_id db ≠ [] ∧ net_position group_id db u ≠ 0.
Proof.
  unfold pending_dues. split.
  - destruct (head (filter _ _)) as [b|] eqn:Hhead; [|done].
    intros Hdue%bool_decide_eq_true.
    assert (b ∈ filter (λ b, user_id b = u) (calculate_group_balances group_id db))
      as [Hu Hb]%list_elem_of_filter.
    { destruct (filter _ _); [done|]. injection Hhead as ->.
      apply elem_of_cons. by left. }
    split; [by eapply calculate_group_balances_nonempty|].
    by rewrite <- Hu, <- (calculate_group_balances_amount _ _ _ Hb).
  - intros [Hm Hnet].
    assert (u ∈ output_ids group_id db) as Hout.
    { rewrite output_ids_eq by done. unfold referenced_users.
      destruct (decide (u ∈ payers group_id db ∪ split_users group_id db
                          ∪ settlement_parties group_id db)) as [Hin|Hin];
        [set_solver|].
      by apply net_position_unreferenced in Hin. }
    unfold output_ids in Hout.
    apply elem_of_list_to_set, list_elem_of_fmap in Hout as (b & -> & Hb).
    rewrite (filter_unique user_id _ b (calculate_group_balances_NoDup _ _) Hb).
    simpl. apply bool_decide_eq_true.
    by rewrite (calculate_group_balances_amount _ _ _ Hb).
Qed.

(** ** Who pays whom, and how much *)

Lemma directed_step cs ds st st' :
  directed cs ds st → loop_guard st → loop_body st = Some st' → directed cs ds st'.
Proof.
  intros [Hc Hd Hts] Hg Hbody.
  destruct (loop_body_guarded st Hg)
    as (cid & cn & ca & did & dn & da & Hci & Hdj & Heq).
  rewrite Heq in Hbody. injection Hbody as <-. clear Heq.
  split; simpl.
  - rewrite list_fmap_insert. simpl. rewrite list_insert_id; [done|].
    by rewrite list_lookup_fmap, Hci.
  - rewrite list_fmap_insert. simpl. rewrite list_insert_id; [done|].
    by rewrite list_lookup_fmap, Hdj.
  - case_decide; [|done]. apply Forall_app. split; [done|].
    apply Forall_singleton. simpl. split; [|split; [|lia]].
    + rewrite <- Hc. apply (list_elem_of_fmap_2' fst _ (cid, cn, ca)); [|done].
      by eapply list_elem_of_lookup_2.
    + rewrite <- Hd. apply (list_elem_of_fmap_2' fst _ (did, dn, da)); [|done].
      by eapply list_elem_of_lookup_2.
Qed.

Lemma initial_directed balances :
  directed (creditors (initial_state balances)) (debtors (initial_state balances))
           (initial_state balances).
Proof. split; [done|done|constructor]. Qed.

Lemma initial_creditor_source balances uid name :
  (uid, name) ∈ (creditors (initial_state balances)).*1
  → ∃ b, b ∈ balances ∧ user_id b = uid ∧ user_name b = name ∧ 0 < balance_inr b.
Proof.
  unfold initial_state. simpl. rewrite sort_desc_perm.
  intros ([[? ?] a] & [= -> ->] & (b & [= -> -> ->] & [Hb Hin]%list_elem_of_filter)
            %list_elem_of_fmap)%list_elem_of_fmap.
  by exists b.
Qed.

Lemma initial_debtor_source balances uid name :
  (uid, name) ∈ (debtors (initial_state balances)).*1
  → ∃ b, b ∈ balances ∧ user_id b = uid ∧ user_name b = name ∧ balance_inr b < 0.
Proof.
  unfold initial_state. simpl. rewrite sort_desc_perm.
  intros ([[? ?] a] & [= -> ->] & (b & [= -> -> ->] & [Hb Hin]%list_elem_of_filter)
            %list_elem_of_fmap)%list_elem_of_fmap.
  by exists b.
Qed.

(** Every transfer is paid by a user the balances show in debt, under the
    name given there, to a user they show in credit; so when the balances
    list each user once, nobody is told to pay themselves. *)
Theorem transfers_run_from_debtors_to_creditors (balances : list BalanceResponse) :
  ∃ transfers,
    simplify_debts balances = Returned transfers
    ∧ (∀ t, t ∈ transfers
            → (∃ b, b ∈ balances ∧ user_id b = from_user_id t
                    ∧ user_name b = from_user_name t ∧ balance_inr b < 0)
              ∧ (∃ b, b ∈ balances ∧ user_id b = to_user_id t
                      ∧ user_name b = to_user_name t ∧ 0 < balance_inr b))
    ∧ (NoDup (user_id <$> balances)
       → ∀ t, t ∈ transfers → from_user_id t ≠ to_user_id t).
Proof.
  destruct (simplify_debts_invariant
    (directed (creditors (initial_state balances)) (debtors (initial_state balances)))
    balances) as (st & Hres & [_ _ Hts] & _).
  { intros st st'. apply directed_step. }
  { apply initial_directed. }
  exists (simplified_debts st). split; [done|].
  rewrite Forall_forall in Hts.
  assert (∀ t, t ∈ simplified_debts st
    → (∃ b, b ∈ balances ∧ user_id b = from_user_id t
            ∧ user_name b = from_user_name t ∧ balance_inr b < 0)
      ∧ (∃ b, b ∈ balances ∧ user_id b = to_user_id t
              ∧ user_name b = to_user_name t ∧ 0 < balance_inr b)) as Hdir.
  { intros t (Hto & Hfrom & _)%Hts. split.
    - by apply initial_debtor_source.
    - by apply initial_creditor_source. }
  split; [done|]. intros Hnd t Ht Heq.
  destruct (Hdir t Ht) as [(bd & Hbd & Hd & _ & Hneg) (bc & Hbc & Hc & _ & Hpos)].
  assert (bd = bc) as -> by (apply (NoDup_fmap_eq user_id balances); congruence).
  lia.
Qed.

Lemma sumZ_nonneg (l : list Z) : Forall (λ x, 0 ≤ x) l → 0 ≤ sumZ l.
Proof. induction 1; simpl; lia. Qed.

Lemma credit_weight u balances :
  credit u balances
  = weight (λ v, bool_decide (v = u)) (creditors (initial_state balances)).
Proof.
  unfold credit, initial_state. simpl.
  rewrite (weight_perm _ _ _ (sort_desc_perm _)).
  induction balances as [|b bs IH]; [done|].
  rewrite !filter_cons.
  destruct (decide (0 < balance_inr b)) as [Hb|Hb].
  - rewrite fmap_cons, weight_cons, <- IH. simpl.
    case_bool_decide; [rewrite decide_True by done; by rewrite fmap_cons|].
    rewrite decide_False by tauto. lia.
  - rewrite decide_False by tauto. done.
Qed.

Lemma debt_weight u balances :
  debt u balances
  = weight (λ v, bool_decide (v = u)) (debtors (initial_state balances)).
Proof.
  unfold debt, initial_state. simpl.
  rewrite (weight_perm _ _ _ (sort_desc_perm _)).
  induction balances as [|b bs IH]; [done|].
  rewrite !filter_cons.
  destruct (decide (balance_inr b < 0)) as [Hb|Hb].
  - rewrite fmap_cons, weight_cons, <- IH. simpl.
    case_bool_decide; [rewrite decide_True by done; by rewrite fmap_cons|].
    rewrite decide_False by tauto. lia.
  - rewrite decide_False by tauto. done.
Qed.

Lemma transfers_nonneg (P : DebtSimplification → Prop) `{∀ t, Decision (P t)} ts :
  Forall (λ t, 0 < amount t) ts → 0 ≤ sumZ (amount <$> filter P ts).
Proof.
  intros Hts. apply sumZ_nonneg, Forall_fmap, Forall_forall.
  intros t [_ Ht]%list_elem_of_filter. rewrite Forall_forall in Hts.
  unfold compose. specialize (Hts t Ht). simpl in Hts. lia.
Qed.

(** On every input, balanced or not, the transfers never take a user past
    zero: what a user is told to pay is at most what the balances say they
    owe, and what a user is to receive is at most what they say the user is
    owed. *)
Theorem transfers_stay_within_balances (balances : list BalanceResponse) :
  ∃ transfers,
    simplify_debts balances = Returned transfers
    ∧ ∀ u, 0 ≤ transfers_from u transfers ≤ debt u balances
           ∧ 0 ≤ transfers_to u transfers ≤ credit u balances.
Proof.
  destruct (simplify_debts_invariant
    (λ st, settled (creditors (initial_state balances))
                   (debtors (initial_state balances)) st
           ∧ directed (creditors (initial_state balances))
                      (debtors (initial_state balances)) st)
    balances) as (st & Hres & [Hsettled [_ _ Hts]] & _).
  { intros st st' [? ?] ? ?. split; [by eapply settled_step | by eapply directed_step]. }
  { split; [apply initial_settled | apply initial_directed]. }
  exists (simplified_debts st). split; [done|]. intros u.
  destruct Hsettled as [Hcn Hdn Hto Hfrom _ _ _].
  assert (Forall (λ t, 0 < amount t) (simplified_debts st)) as Hpos.
  { eapply Forall_impl; [exact Hts|]. by intros t (_ & _ & ?). }
  pose proof (transfers_nonneg (λ t, from_user_id t = u) _ Hpos) as Hpaid.
  pose proof (transfers_nonneg (λ t, to_user_id t = u) _ Hpos) as Hgot.
  change (0 ≤ transfers_from u (simplified_debts st)) in Hpaid.
  change (0 ≤ transfers_to u (simplified_debts st)) in Hgot.
  pose proof (Hto (λ v, bool_decide (v = u))).
  pose proof (Hfrom (λ v, bool_decide (v = u))).
  pose proof (weight_nonneg (λ v, bool_decide (v = u)) _ Hcn).
  pose proof (weight_nonneg (λ v, bool_decide (v = u)) _ Hdn).
  pose proof (transfers_to_sent u (simplified_debts st)).
  pose proof (transfers_from_sent u (simplified_debts st)).
  rewrite credit_weight, debt_weight. lia.
Qed.

(** Users who are settled up do not change the transfers. *)
Theorem settled_users_do_not_matter (balances : list BalanceResponse) :
  simplify_debts (nonzero_balances balances) = simplify_debts balances.
Proof.
  assert (initial_state (nonzero_balances balances) = initial_state balances) as Hinit.
  { unfold initial_state, nonzero_balances. rewrite !list_filter_filter.
    do 2 f_equal; f_equal; apply list_filter_iff; intros b; lia. }
  unfold simplify_debts, simplify_debts_in. rewrite Hinit.
  apply while_loop_fuel; rewrite initial_state_remaining; [done|].
  apply nonzero_balances_length.
Qed.

(** ** Completing a settlement *)

Lemma alter_middle {A} (f : A → A) (l : list A) k x :
  l !! k = Some x
  → l = take k l ++ x :: drop (S k) l
    ∧ alter f k l = take k l ++ f x :: drop (S k) l.
Proof.
  revert k. induction l as [|y l IH]; intros [|k] Hk; try done.
  - injection Hk as ->. done.
  - destruct (IH k Hk) as [Hl Ha]. split; simpl.
    + f_equal. exact Hl.
    + f_equal. exact Ha.
Qed.

Lemma net_position_complete gid db k s u :
  settlements db !! k = Some s
  → Settlement.status s ≠ "completed"
  → Settlement.group_id s = gid
  → net_position gid (set_settlement_status k "completed" db) u
    = net_position gid db u
      + (if decide (u = Settlement.from_user_id s) then Settlement.amount_inr s else 0)
      - (if decide (u = Settlement.to_user_id s) then Settlement.amount_inr s else 0).
Proof.
  intros Hk Hs Hg.
  unfold net_position, paid, owed, sent, received, join_splits, set_settlement_status.
  simpl.
  destruct (alter_middle
    (λ s, Settlement.mk (Settlement.group_id s) (Settlement.from_user_id s)
                        (Settlement.to_user_id s) (Settlement.amount_inr s) "completed")
    _ _ _ Hk) as [Hl ->].
  remember (take k (settlements db)) as before eqn:Hbefore.
  remember (drop (S k) (settlements db)) as after eqn:Hafter.
  rewrite Hl. clear Hl Hbefore Hafter Hk.
  rewrite !filter_app, !fmap_app, !sumZ_app, !filter_cons.
  rewrite !(decide_False (P := completed gid s ∧ _)) by (by intros [[_ ?] _]).
  destruct (decide (u = Settlement.from_user_id s)) as [Hf|Hf];
    destruct (decide (u = Settlement.to_user_id s)) as [Ht|Ht];
    repeat (first [rewrite decide_True by (split; [by split | simpl; congruence])
                  |rewrite decide_False by (intros [_ ?]; simpl in *; congruence)]);
    rewrite ?fmap_cons, ?sumZ_cons; simpl; lia.
Qed.

(** Completing a settlement of a group that was not completed before shifts
    the balance of every record of the new output by the settlement's amount,
    added for the sender and subtracted for the receiver. *)
Theorem completing_a_settlement_moves_balances (group_id : string) (db : Session)
    (k : nat) (s : Settlement.t) :
  settlements db !! k = Some s
  → Settlement.status s ≠ "completed"
  → Settlement.group_id s = group_id
  → ∀ b, b ∈ calculate_group_balances group_id (set_settlement_status k "completed" db)
         → balance_inr b
           = balance_in (calculate_group_balances group_id db) (user_id b)
             + (if decide (user_id b = Settlement.from_user_id s)
                then Settlement.amount_inr s else 0)
             - (if decide (user_id b = Settlement.to_user_id s)
                then Settlement.amount_inr s else 0).
Proof.
  intros Hk Hs Hg b Hb.
  pose proof (calculate_group_balances_nonempty _ _ _ Hb) as Hm.
  rewrite (calculate_group_balances_amount _ _ _ Hb).
  rewrite (net_position_complete _ _ _ _ _ Hk Hs Hg).
  by rewrite balance_in_calculate.
Qed.

(** ** The further statements on the scenarios *)

Lemma calculate_group_balances_cached_store gid db r :
  group_keys r !! gid = None → active_members gid db ≠ []
  → (calculate_group_balances_cached gid db r).2
    = mkRedis (<[gid := calculate_group_balances gid db]> (group_keys r)) (user_keys r).
Proof.
  intros Hmiss Hm. unfold calculate_group_balances_cached. rewrite Hmiss.
  by destruct (active_members gid db).
Qed.

Lemma calculate_user_net_balance_cached_store uid db r :
  user_keys r !! uid = None → active_group_ids uid db ≠ []
  → (calculate_user_net_balance_cached uid db r).2
    = mkRedis (group_keys r) (<[uid := calculate_user_net_balance uid db]> (user_keys r)).
Proof.
  intros Hmiss Hm. unfold calculate_user_net_balance_cached. rewrite Hmiss.
  by destruct (active_group_ids uid db).
Qed.

Lemma warm_is_fresh : fresh_groups Scenario.trip Cases.warm.
Proof.
  intros g cached Hg. destruct (decide (g = "group_1")) as [->|Hne].
  - vm_compute in Hg. injection Hg as <-. reflexivity.
  - unfold Cases.warm in Hg.
    rewrite calculate_group_balances_cached_store in Hg by (by vm_compute).
    cbn [group_keys Cases.cold] in Hg.
    rewrite lookup_insert_ne in Hg by done. by rewrite lookup_empty in Hg.
Qed.

Lemma warm_user_is_fresh : fresh_users Scenario.trip Cases.warm_user.
Proof.
  intros u cached Hu. destruct (decide (u = "user_a")) as [->|Hne].
  - vm_compute in Hu. injection Hu as <-. reflexivity.
  - unfold Cases.warm_user in Hu.
    rewrite calculate_user_net_balance_cached_store in Hu by (by vm_compute).
    cbn [user_keys Cases.cold] in Hu.
    rewrite lookup_insert_ne in Hu by done. by rewrite lookup_empty in Hu.
Qed.

Lemma balances_add_up_to_uncovered_witness :
  sumZ (balance_inr <$> calculate_group_balances "group_1" Cases.short_split)
  = sumZ (uncovered Cases.short_split
            <$> filter (live_in "group_1") (expenses Cases.short_split)).
Proof. apply balances_add_up_to_uncovered. by vm_compute. Defined.

Lemma idle_member_has_zero_balance_witness :
  ∃ b, b ∈ calculate_group_balances "group_1" Cases.trip_with_guest
       ∧ user_id b = "user_d" ∧ balance_inr b = 0.
Proof.
  apply idle_member_has_zero_balance.
  - apply elem_of_list_to_set. apply (bool_decide_unpack _). by vm_compute.
  - apply (bool_decide_unpack _). by vm_compute.
Defined.

Lemma records_carry_names_witness :
  (∀ m, filter (λ m', GroupMember.user_id m' = "user_d")
               (active_members "group_1" Cases.trip_with_guest) = [m]
        → "user_d@example.com" = member_name m)
  ∧ ("user_d" ∉ member_ids "group_1" Cases.trip_with_guest
     → (∀ row, filter (λ row', User.id row' = "user_d")
                      (users Cases.trip_with_guest) = [row]
               → "user_d@example.com" = user_row_name row)
       ∧ ("user_d" ∉ User.id <$> users Cases.trip_with_guest
          → "user_d@example.com" = "user_d")).
Proof.
  apply (records_carry_names "group_1" Cases.trip_with_guest
           (mkBalance "user_d" "user_d@example.com" 0 0 "INR")).
  apply (bool_decide_unpack _). by vm_compute.
Defined.

Lemma group_cache_read_through_witness :
  (calculate_group_balances_cached "group_1" Scenario.trip Cases.warm).1
  = calculate_group_balances "group_1" Scenario.trip
  ∧ fresh_groups Scenario.trip
      (calculate_group_balances_cached "group_1" Scenario.trip Cases.warm).2.
Proof. apply group_cache_read_through, warm_is_fresh. Defined.

Lemma user_cache_read_through_witness :
  (calculate_user_net_balance_cached "user_a" Scenario.trip Cases.warm_user).1
  = calculate_user_net_balance "user_a" Scenario.trip
  ∧ fresh_users Scenario.trip
      (calculate_user_net_balance_cached "user_a" Scenario.trip Cases.warm_user).2.
Proof. apply user_cache_read_through, warm_user_is_fresh. Defined.

Lemma cached_result_is_served_while_stored_witness :
  (active_members "group_1" Scenario.trip ≠ []
   → ∀ db' gone_groups gone_users,
       (calculate_group_balances_cached "group_1" db'
          (expire gone_groups gone_users
             (calculate_group_balances_cached "group_1" Scenario.trip
                Cases.cold).2)).1
       = (if decide ("group_1" ∈ gone_groups)
          then calculate_group_balances "group_1" db'
          else calculate_group_balances "group_1" Scenario.trip)
       ∧ (calculate_group_balances_cached "group_1" db'
            (invalidate_group_balance_cache "group_1"
               (calculate_group_balances_cached "group_1" Scenario.trip
                  Cases.cold).2)).1
         = calculate_group_balances "group_1" db')
  ∧ (active_members "group_1" Scenario.trip = []
     → calculate_group_balances_cached "group_1" Scenario.trip Cases.cold
       = ([], Cases.cold)).
Proof. apply cached_result_is_served_while_stored. reflexivity. Defined.

Lemma invalidation_keeps_groups_fresh_witness :
  (∀ e splits,
     Expense.id e ∉ Expense.id <$> expenses Scenario.trip
     → (∀ s, s ∈ splits → ExpenseSplit.expense_id s = Expense.id e)
     → fresh_groups (add_expense e splits Scenario.trip)
         (invalidate_group_balance_cache (Expense.group_id e) Cases.warm))
  ∧ (∀ s, fresh_groups (add_settlement s Scenario.trip)
            (invalidate_group_balance_cache (Settlement.group_id s) Cases.warm))
  ∧ (∀ e now,
       e ∈ expenses Scenario.trip
       → NoDup (Expense.id <$> expenses Scenario.trip)
       → fresh_groups (mark_deleted (Expense.id e) now Scenario.trip)
           (invalidate_group_balance_cache (Expense.group_id e) Cases.warm)).
Proof. apply invalidation_keeps_groups_fresh, warm_is_fresh. Defined.

Lemma completing_a_settlement_moves_balances_witness :
  balance_inr (Scenario.balance_of Scenario.user_b 0)
  = balance_in (calculate_group_balances "group_1" Cases.trip_pending)
               (user_id (Scenario.balance_of Scenario.user_b 0))
    + (if decide (user_id (Scenario.balance_of Scenario.user_b 0)
                  = Settlement.from_user_id (Scenario.b_pays_a "pending"))
       then Settlement.amount_inr (Scenario.b_pays_a "pending") else 0)
    - (if decide (user_id (Scenario.balance_of Scenario.user_b 0)
                  = Settlement.to_user_id (Scenario.b_pays_a "pending"))
       then Settlement.amount_inr (Scenario.b_pays_a "pending") else 0).
Proof.
  apply (completing_a_settlement_moves_balances "group_1" Cases.trip_pending 0
           (Scenario.b_pays_a "pending")).
  - reflexivity.
  - by vm_compute.
  - reflexivity.
  - apply (bool_decide_unpack _). by vm_compute.
Defined.
